(** * Blogosphere: the entity store, the external content mapper and the
      client aggregation pipeline

    A shallow embedding of [server/storage.ts] (class [MemStorage]), of
    the client's [lib/api-service.ts] ([mapExternalPostToSchema],
    [fetchExternalPosts], [fetchExternalPostsByCategory],
    [searchExternalPosts]) and of the filter/sort stage of [HomePage],
    with the properties of the data-and-query layer stated over them.

    Modelling conventions
    - JavaScript numbers that are integers (ids, counters, timestamps in
      milliseconds) are integers of [Z]; the arithmetic the code does on
      them (increment, subtraction of timestamps) is exact in that range.
    - Strings are sequences of code units below 256 (ASCII and the
      Latin-1 supplement); on these [toLowerCase] is what
      [String.prototype.toLowerCase] is: it folds A-Z and the capital
      letters of the supplement (U+00C0-U+00DE without the multiplication
      sign U+00D7) onto the code unit 32 above, and leaves the rest.
    - A run-time object is a finite map from property names to values, so
      that object spread is map union; the typed records of the client
      side ([Post], [ExternalBlogPost]) are Rocq records.
    - A [Map] is an association list in insertion order.
    - What the environment supplies (the clock read by [new Date()], the
      outcome of [fetch], the collation behind [localeCompare]) is an
      argument of the function that uses it. *)

From Stdlib Require Import ZArith List Ascii String Permutation OrdersEx.
From stdpp Require Import base strings gmap list sorting pretty.

Open Scope Z_scope.

(** ** JavaScript strings *)

Module JsString.

Definition toLowerCase_unit (c : ascii) : ascii :=
  let n := nat_of_ascii c in
  if (((65 <=? n)%nat && (n <=? 90)%nat)
      || ((192 <=? n)%nat && (n <=? 222)%nat && negb (n =? 215)%nat))%bool
  then ascii_of_nat (n + 32) else c.

(** [s.toLowerCase()] *)
Fixpoint toLowerCase (s : string) : string :=
  match s with
  | EmptyString => EmptyString
  | String c s' => String (toLowerCase_unit c) (toLowerCase s')
  end.

(** [s.includes(sub)]: [sub] occurs in [s] at some position. *)
Fixpoint includes (s sub : string) : bool :=
  String.prefix sub s ||
  match s with
  | EmptyString => false
  | String _ s' => includes s' sub
  end.

(** [parts.join(sep)] *)
Definition join (parts : list string) (sep : string) : string :=
  String.concat sep parts.

(** [`${n}`] for an integer [n]: its decimal numeral. *)
Definition ofNumber (n : Z) : string := pretty n.

(** [sub] is a substring of [s]. *)
Definition substring_of (sub s : string) : Prop :=
  ∃ pre post, s = pre +:+ sub +:+ post.

(** *** Letter case, from the alphabet

    Independently of [toLowerCase]: the table of the letters that have
    two cases, capital beside small; the basic alphabet first, then the
    letters of the Latin-1 supplement by their code units (capital A
    grave to capital O diaeresis, capital O stroke to capital thorn). *)
Definition letter_pairs : list (ascii * ascii) :=
  zip (list_ascii_of_string "ABCDEFGHIJKLMNOPQRSTUVWXYZ"
       ++ (ascii_of_nat <$> seq 192 23 ++ seq 216 7))
      (list_ascii_of_string "abcdefghijklmnopqrstuvwxyz"
       ++ (ascii_of_nat <$> seq 224 23 ++ seq 248 7)).

(** Two code units are the same up to letter case. *)
Definition same_letter (c d : ascii) : Prop :=
  c = d ∨ (c, d) ∈ letter_pairs ∨ (d, c) ∈ letter_pairs.

#[global] Instance same_letter_dec c d : Decision (same_letter c d).
Proof. unfold same_letter. apply _. Defined.




End JsString.

(** ** Run-time values and objects *)

Inductive value :=
| VUndefined
| VNull
| VBool (b : bool)
| VNum (n : Z)
| VStr (s : string)
| VDate (t : Z).

#[global] Instance value_eq_dec : EqDecision value.
Proof. solve_decision. Defined.

(** An object: own enumerable properties by name. *)
Abbreviation obj := (gmap string value).

(** [o.k]: reading an absent property gives [undefined]. *)
Definition prop (o : obj) (k : string) : value := default VUndefined (o !! k).

(** Whether a value counts as true in a condition. *)
Definition truthy (v : value) : bool :=
  match v with
  | VUndefined | VNull => false
  | VBool b => b
  | VNum n => negb (n =? 0)
  | VStr s => negb (String.eqb s "")
  | VDate _ => true
  end.

(** [a === b] for values read from two different records: two Date
    objects are never the same object. *)
Definition strict_equal (a b : value) : bool :=
  match a, b with
  | VDate _, _ | _, VDate _ => false
  | _, _ => bool_decide (a = b)
  end.

(** [{ ...a, ...b }]: the properties of [b] win. *)
Definition spread (a b : obj) : obj := b ∪ a.

(** What an operation that can throw returns. *)
Inductive exn := TypeError | SyntaxError | Error (message : string).

Inductive result (A : Type) :=
| Ok (a : A)
| Throw (e : exn).
Arguments Ok {A} a.
Arguments Throw {A} e.

#[global] Instance result_ret : MRet result := λ A a, Ok a.
#[global] Instance result_bind : MBind result := λ A B f m,
  match m with
  | Ok a => f a
  | Throw e => Throw e
  end.

(** [l.filter(f)] and [l.some(f)] with a callback that can throw: the
    callback runs on the elements in order, and its exception ends the
    call. *)
Fixpoint Array_filter {A} (f : A → result bool) (l : list A) : result (list A) :=
  match l with
  | [] => Ok []
  | x :: l' =>
      b ← f x;
      r ← Array_filter f l';
      Ok (if b : bool then x :: r else r)
  end.

Fixpoint Array_some {A} (f : A → result bool) (l : list A) : result bool :=
  match l with
  | [] => Ok false
  | x :: l' =>
      b ← f x;
      if b : bool then Ok true else Array_some f l'
  end.

(** [v.toLowerCase()] on a value: a [TypeError] unless [v] is a string. *)
Definition toLowerCase_of (v : value) : result string :=
  match v with
  | VStr s => Ok (JsString.toLowerCase s)
  | _ => Throw TypeError
  end.

(** ** [Map<number, V>]: entries in insertion order *)

Section JsMap.
Context {V : Type}.

Fixpoint Map_get (k : Z) (m : list (Z * V)) : option V :=
  match m with
  | [] => None
  | (k', v) :: m' => if decide (k' = k) then Some v else Map_get k m'
  end.

(** [m.set(k, v)]: an existing key keeps its place, a new key goes last. *)
Fixpoint Map_set (k : Z) (v : V) (m : list (Z * V)) : list (Z * V) :=
  match m with
  | [] => [(k, v)]
  | (k', v') :: m' =>
      if decide (k' = k) then (k, v) :: m' else (k', v') :: Map_set k v m'
  end.

(** [m.delete(k)]: whether the key was present, and the map without it. *)
Fixpoint Map_delete (k : Z) (m : list (Z * V)) : bool * list (Z * V) :=
  match m with
  | [] => (false, [])
  | (k', v') :: m' =>
      if decide (k' = k) then (true, m')
      else let '(b, m'') := Map_delete k m' in (b, (k', v') :: m'')
  end.

(** [Array.from(m.values())] *)
Definition Map_values (m : list (Z * V)) : list V := m.*2.

End JsMap.

(** [found] is [l] with exactly the elements that satisfy [P] kept. *)
Fixpoint kept_exactly {A} (P : A → Prop) (l found : list A) : Prop :=
  match l with
  | [] => found = []
  | x :: l' =>
      (P x ∧ ∃ found', found = x :: found' ∧ kept_exactly P l' found')
      ∨ (¬ P x ∧ kept_exactly P l' found)
  end.

(** ** The entity store ([server/storage.ts]) *)

Module Storage.

Record MemStorage := {
  users : list (Z * obj);
  posts : list (Z * obj);
  comments : list (Z * obj);
  currentUserId : Z;
  currentPostId : Z;
  currentCommentId : Z;
}.

(** [new MemStorage()]: the admin account is seeded with id 1. *)
Definition constructor : MemStorage :=
  {| users := Map_set 1
       (list_to_map [("id", VNum 1); ("username", VStr "admin");
                     ("password", VStr "admin");
                     ("fullName", VStr "Admin User");
                     ("isAdmin", VBool true)] : obj) [];
     posts := []; comments := [];
     currentUserId := 1 + 1; currentPostId := 1; currentCommentId := 1 |}.

Definition getUser (id : Z) (st : MemStorage) : option obj :=
  Map_get id (users st).

Definition getUserByUsername (username : string) (st : MemStorage) : option obj :=
  List.find (λ user, bool_decide (prop user "username" = VStr username))
    (Map_values (users st)).

Definition createUser (insertUser : obj) (st : MemStorage) : obj * MemStorage :=
  let id := currentUserId st in
  let user : obj := <["isAdmin" := VBool false]> (<["id" := VNum id]> insertUser) in
  (user,
   {| users := Map_set id user (users st);
      posts := posts st; comments := comments st;
      currentUserId := id + 1;
      currentPostId := currentPostId st;
      currentCommentId := currentCommentId st |}).

Definition getAllUsers (st : MemStorage) : list obj := Map_values (users st).

(** [now] is the value of [new Date()] at the call. *)
Definition createPost (insertPost : obj) (now : Z) (st : MemStorage)
  : obj * MemStorage :=
  let id := currentPostId st in
  let post : obj := <["createdAt" := VDate now]> (<["id" := VNum id]> insertPost) in
  (post,
   {| users := users st;
      posts := Map_set id post (posts st);
      comments := comments st;
      currentUserId := currentUserId st;
      currentPostId := id + 1;
      currentCommentId := currentCommentId st |}).

Definition getPost (id : Z) (st : MemStorage) : option obj :=
  Map_get id (posts st).

Definition updatePost (id : Z) (postUpdate : obj) (st : MemStorage)
  : option obj * MemStorage :=
  match Map_get id (posts st) with
  | None => (None, st)
  | Some post =>
      let updatedPost := spread post postUpdate in
      (Some updatedPost,
       {| users := users st;
          posts := Map_set id updatedPost (posts st);
          comments := comments st;
          currentUserId := currentUserId st;
          currentPostId := currentPostId st;
          currentCommentId := currentCommentId st |})
  end.

Definition deletePost (id : Z) (st : MemStorage) : bool * MemStorage :=
  let '(existed, posts') := Map_delete id (posts st) in
  (existed,
   {| users := users st; posts := posts'; comments := comments st;
      currentUserId := currentUserId st;
      currentPostId := currentPostId st;
      currentCommentId := currentCommentId st |}).

Definition getAllPosts (st : MemStorage) : list obj := Map_values (posts st).

Definition getPostsByAuthor (authorId : Z) (st : MemStorage) : list obj :=
  List.filter (λ post, bool_decide (prop post "authorId" = VNum authorId))
    (Map_values (posts st)).

Definition getPostsByCategory (category : string) (st : MemStorage) : list obj :=
  List.filter (λ post, bool_decide (prop post "category" = VStr category))
    (Map_values (posts st)).

(** The callback of [searchPosts]: [||] evaluates its right operand only
    when the left one is false, and [post.tags?.] stops at [undefined]
    (which [filter] reads as false) when [tags] is null or absent. *)
Definition searchPosts_callback (lowerQuery : string) (post : obj) : result bool :=
  title ← toLowerCase_of (prop post "title");
  if JsString.includes title lowerQuery then Ok true else
  content ← toLowerCase_of (prop post "content");
  if JsString.includes content lowerQuery then Ok true else
  match prop post "tags" with
  | VUndefined | VNull => Ok false
  | tags => tags' ← toLowerCase_of tags; Ok (JsString.includes tags' lowerQuery)
  end.

Definition searchPosts (query : string) (st : MemStorage) : result (list obj) :=
  let lowerQuery := JsString.toLowerCase query in
  Array_filter (searchPosts_callback lowerQuery) (Map_values (posts st)).

(** [now] is the value of [new Date()] at the call. *)
Definition createComment (insertComment : obj) (now : Z) (st : MemStorage)
  : obj * MemStorage :=
  let id := currentCommentId st in
  let comment : obj :=
    <["createdAt" := VDate now]> (<["id" := VNum id]> insertComment) in
  (comment,
   {| users := users st;
      posts := posts st;
      comments := Map_set id comment (comments st);
      currentUserId := currentUserId st;
      currentPostId := currentPostId st;
      currentCommentId := id + 1 |}).

Definition getCommentsByPost (postId : Z) (st : MemStorage) : list obj :=
  List.filter (λ comment, bool_decide (prop comment "postId" = VNum postId))
    (Map_values (comments st)).

Definition deleteComment (id : Z) (st : MemStorage) : bool * MemStorage :=
  let '(existed, comments') := Map_delete id (comments st) in
  (existed,
   {| users := users st; posts := posts st; comments := comments';
      currentUserId := currentUserId st;
      currentPostId := currentPostId st;
      currentCommentId := currentCommentId st |}).

(** *** Sequences of post operations *)

Inductive post_op :=
| OpCreate (insertPost : obj) (now : Z)
| OpUpdate (id : Z) (postUpdate : obj)
| OpDelete (id : Z).

Definition step (st : MemStorage) (op : post_op) : MemStorage :=
  match op with
  | OpCreate insertPost now => (createPost insertPost now st).2
  | OpUpdate id postUpdate => (updatePost id postUpdate st).2
  | OpDelete id => (deletePost id st).2
  end.

Definition run (ops : list post_op) (st : MemStorage) : MemStorage :=
  fold_left step ops st.

(** *** What the specification expects of [getAllPosts]

    These definitions follow the specification's sentence, not the code:
    the posts created and not deleted afterwards, each one its created
    record merged with its later updates in order. *)

(** The record a creation with the [n]-th id stores. *)
Definition created_record (n : Z) (insertPost : obj) (now : Z) : obj :=
  <["createdAt" := VDate now]> (<["id" := VNum n]> insertPost).

Definition deleted_later (id : Z) (ops : list post_op) : bool :=
  existsb (λ op, match op with OpDelete id' => bool_decide (id' = id) | _ => false end) ops.

Definition merge_updates (id : Z) (ops : list post_op) (post : obj) : obj :=
  fold_left (λ post op,
    match op with
    | OpUpdate id' postUpdate => if decide (id' = id) then spread post postUpdate else post
    | _ => post
    end) ops post.

(** [n] is the id the next creation receives. *)
Fixpoint expected_posts (n : Z) (ops : list post_op) : list obj :=
  match ops with
  | [] => []
  | OpCreate insertPost now :: rest =>
      (if deleted_later n rest then []
       else [merge_updates n rest (created_record n insertPost now)])
      ++ expected_posts (n + 1) rest
  | _ :: rest => expected_posts n rest
  end.

(** What is left of the entries [m] after the operations [ops]. *)
Definition survivors (ops : list post_op) (m : list (Z * obj)) : list obj :=
  omap (λ e : Z * obj,
      if deleted_later e.1 ops then None else Some (merge_updates e.1 ops e.2)) m.

(** The keys of the post map are distinct and below the counter. *)
Definition posts_ok (st : MemStorage) : Prop :=
  NoDup (posts st).*1 ∧ Forall (λ k, k < currentPostId st) (posts st).*1.

(** *** What the specification expects of [searchPosts]

    Again from the specification's words: a case-insensitive substring
    match of the query against the title, the content or the tags. The
    match is stated from the alphabet ([JsString.letter_pairs]), not
    through the code's [toLowerCase]. *)


(** *** The declared types of the schema, read on run-time objects *)




(** The number of creations among [ops]. *)
Definition creations (ops : list post_op) : Z :=
  Z.of_nat (length (List.filter
    (λ op, match op with OpCreate _ _ => true | _ => false end) ops)).

(** No update among [ops] carries an [id] property (the type
    [Partial<InsertPost>] of [postUpdate] has none). *)
Definition updates_carry_no_id (ops : list post_op) : Prop :=
  Forall (λ op, match op with
                | OpUpdate _ postUpdate => postUpdate !! "id" = None
                | _ => True
                end) ops.

(** Every stored post has its key as its [id] property. *)
Definition ids_are_keys (st : MemStorage) : Prop :=
  Forall (λ e : Z * obj, prop e.2 "id" = VNum e.1) (posts st).

(** A sequence of registrations. *)
Definition register_all (inputs : list obj) (st : MemStorage) : MemStorage :=
  fold_left (λ st insertUser, (createUser insertUser st).2) inputs st.

(** The keys of the user map are distinct and below the counter, the
    user stored under key 1 is the only one that may be an admin. *)
Definition users_ok (st : MemStorage) : Prop :=
  NoDup (users st).*1
  ∧ Forall (λ k, k < currentUserId st) (users st).*1
  ∧ Forall (λ e : Z * obj, e.1 ≠ 1 → prop e.2 "isAdmin" = VBool false) (users st)
  ∧ Forall (λ e : Z * obj, prop e.2 "id" = VNum e.1) (users st).

End Storage.

(** ** The request handlers ([server/routes.ts]) *)

Module Routes.

(** What a handler reads of a request: whether it is authenticated,
    [req.user], the route parameter after [parseInt(_, 10)] ([None] is
    [NaN]) and the body. *)
Record request := {
  isAuthenticated : bool;
  user : obj;
  param : option Z;
  body : obj;
}.

(** What a handler sends: a message, one record, a list of records, the
    report of a validation error, or nothing. *)
Inductive payload :=
| Message (text : string)
| One (o : obj)
| Many (l : list obj)
| Invalid (text : string)
| Nothing.

Record response := {
  status : Z;
  sent : payload;
}.

(** [storage.getPost(postId)] with [postId] possibly [NaN]: no post is
    stored under [NaN]. *)
Definition getPost_param (postId : option Z) (st : Storage.MemStorage) : option obj :=
  postId ≫= λ id, Storage.getPost id st.

(** [post.authorId !== req.user.id && !req.user.isAdmin] *)
Definition forbidden (post user : obj) : bool :=
  negb (strict_equal (prop post "authorId") (prop user "id"))
  && negb (truthy (prop user "isAdmin")).

Section Handlers.

(** The validators of [shared/schema.ts], built by the zod library:
    [insertPostSchema.parse], [insertPostSchema.partial().parse] and
    [insertCommentSchema.parse] give the validated data, or throw a
    [ZodError] ([None]). *)
Variable insertPostSchema_parse : obj → option obj.
Variable insertPostSchema_partial_parse : obj → option obj.
Variable insertCommentSchema_parse : obj → option obj.

(** [GET /api/posts/:id] *)
Definition get_post (req : request) (st : Storage.MemStorage) : response :=
  match getPost_param (param req) st with
  | None => {| status := 404; sent := Message "Post not found" |}
  | Some post => {| status := 200; sent := One post |}
  end.

(** [POST /api/posts]; [now] is the time of the call of [createPost]. *)
Definition post_post (req : request) (now : Z) (st : Storage.MemStorage)
  : response * Storage.MemStorage :=
  if negb (isAuthenticated req) then
    ({| status := 401; sent := Message "Unauthorized" |}, st)
  else
    match insertPostSchema_parse (<["authorId" := prop (user req) "id"]> (body req)) with
    | None => ({| status := 400; sent := Invalid "Invalid post data" |}, st)
    | Some validatedData =>
        let created := Storage.createPost validatedData now st in
        ({| status := 201; sent := One created.1 |}, created.2)
    end.

(** [PUT /api/posts/:id] *)
Definition put_post (req : request) (st : Storage.MemStorage)
  : response * Storage.MemStorage :=
  if negb (isAuthenticated req) then
    ({| status := 401; sent := Message "Unauthorized" |}, st)
  else
    match param req, getPost_param (param req) st with
    | Some postId, Some post =>
        if forbidden post (user req) then
          ({| status := 403; sent := Message "Forbidden" |}, st)
        else
          match insertPostSchema_partial_parse (body req) with
          | None => ({| status := 400; sent := Invalid "Invalid post data" |}, st)
          | Some validatedData =>
              let updated := Storage.updatePost postId validatedData st in
              ({| status := 200;
                  sent := match updated.1 with Some p => One p | None => Nothing end |},
               updated.2)
          end
    | _, _ => ({| status := 404; sent := Message "Post not found" |}, st)
    end.

(** [DELETE /api/posts/:id] *)
Definition delete_post (req : request) (st : Storage.MemStorage)
  : response * Storage.MemStorage :=
  if negb (isAuthenticated req) then
    ({| status := 401; sent := Message "Unauthorized" |}, st)
  else
    match param req, getPost_param (param req) st with
    | Some postId, Some post =>
        if forbidden post (user req) then
          ({| status := 403; sent := Message "Forbidden" |}, st)
        else
          ({| status := 204; sent := Nothing |}, (Storage.deletePost postId st).2)
    | _, _ => ({| status := 404; sent := Message "Post not found" |}, st)
    end.

(** [GET /api/posts/:postId/comments]: no comment has the post id [NaN]. *)
Definition get_comments (req : request) (st : Storage.MemStorage) : response :=
  {| status := 200;
     sent := Many (match param req with
                   | Some postId => Storage.getCommentsByPost postId st
                   | None => []
                   end) |}.

(** [POST /api/posts/:postId/comments] *)
Definition post_comment (req : request) (now : Z) (st : Storage.MemStorage)
  : response * Storage.MemStorage :=
  if negb (isAuthenticated req) then
    ({| status := 401; sent := Message "Unauthorized" |}, st)
  else
    match param req, getPost_param (param req) st with
    | Some postId, Some post =>
        match insertCommentSchema_parse
                (<["postId" := VNum postId]>
                   (<["authorId" := prop (user req) "id"]> (body req))) with
        | None => ({| status := 400; sent := Invalid "Invalid comment data" |}, st)
        | Some validatedData =>
            let created := Storage.createComment validatedData now st in
            ({| status := 201; sent := One created.1 |}, created.2)
        end
    | _, _ => ({| status := 404; sent := Message "Post not found" |}, st)
    end.

(** [DELETE /api/comments/:id]: the handler checks no ownership;
    deleting under [NaN] removes nothing. *)
Definition delete_comment (req : request) (st : Storage.MemStorage)
  : response * Storage.MemStorage :=
  if negb (isAuthenticated req) then
    ({| status := 401; sent := Message "Unauthorized" |}, st)
  else
    ({| status := 204; sent := Nothing |},
     match param req with
     | Some commentId => (Storage.deleteComment commentId st).2
     | None => st
     end).

(** [GET /api/users] *)
Definition get_users (req : request) (st : Storage.MemStorage) : response :=
  if negb (isAuthenticated req) || negb (truthy (prop (user req) "isAdmin")) then
    {| status := 403; sent := Message "Forbidden" |}
  else {| status := 200; sent := Many (Storage.getAllUsers st) |}.

End Handlers.

End Routes.

(** ** The shared schema ([shared/schema.ts]), as the client types it *)

Module Post.
Record t := mk {
  id : Z;
  title : string;
  content : string;
  imageUrl : option string;
  category : option string;
  tags : option string;
  createdAt : option Z;
  authorId : option Z;
  published : option bool;
}.

Definition set_category (c : string) (p : t) : t :=
  mk (id p) (title p) (content p) (imageUrl p) (Some c) (tags p)
     (createdAt p) (authorId p) (published p).
End Post.

#[global] Instance Post_eq_dec : EqDecision Post.t.
Proof. solve_decision. Defined.

(** Modelled from the spec: the client's query function ([lib/queryClient],
    not among the sources) hands [HomePage] the store's posts as values
    of type [Post] ("local Post sequence (from Query Layer)"). A property
    that is absent or null reads as null; an object without an integer
    [id] or a string [title] and [content] is not a [Post]. *)
Definition Post_of_obj (o : obj) : option Post.t :=
  let opt_string v := match v with VStr s => Some s | _ => None end in
  match prop o "id", prop o "title", prop o "content" with
  | VNum id, VStr title, VStr content =>
      Some (Post.mk id title content
              (opt_string (prop o "imageUrl"))
              (opt_string (prop o "category"))
              (opt_string (prop o "tags"))
              (match prop o "createdAt" with VDate t => Some t | _ => None end)
              (match prop o "authorId" with VNum a => Some a | _ => None end)
              (match prop o "published" with VBool b => Some b | _ => None end))
  | _, _, _ => None
  end.

(** ** The external content mapper ([client/src/lib/api-service.ts]) *)

Module ExternalBlogPost.
Record t := mk {
  id : Z;
  title : string;
  body : string;
  userId : Z;
  tags : list string;
  reactions : Z;
}.

Definition set_tags (tags' : list string) (p : t) : t :=
  mk (id p) (title p) (body p) (userId p) tags' (reactions p).
End ExternalBlogPost.

#[global] Instance ExternalBlogPost_eq_dec : EqDecision ExternalBlogPost.t.
Proof. solve_decision. Defined.

Module ApiService.

Record ExternalApiResponse := {
  posts : list ExternalBlogPost.t;
  total : Z;
  skip : Z;
  limit : Z;
}.

(** [a || d] for a string or [undefined] [a]: the empty string is falsy. *)
Definition or_string (a : option string) (d : string) : string :=
  match a with
  | Some EmptyString | None => d
  | Some s => s
  end.

(** [now] is the value of [new Date()] in the call. *)
Definition mapExternalPostToSchema (now : Z) (post : ExternalBlogPost.t) : Post.t :=
  {| Post.id := ExternalBlogPost.id post;
     Post.title := ExternalBlogPost.title post;
     Post.content := ExternalBlogPost.body post;
     Post.authorId := Some (ExternalBlogPost.userId post);
     Post.category := Some (or_string (head (ExternalBlogPost.tags post)) "Uncategorized");
     Post.tags := Some (JsString.join (ExternalBlogPost.tags post) ",");
     Post.imageUrl :=
       Some ("https://picsum.photos/seed/"
             +:+ JsString.ofNumber (ExternalBlogPost.id post) +:+ "/800/500");
     Post.createdAt := Some now;
     Post.published := Some true |}.

(** *** Objects with identity, allocation, exceptions

    [fetchExternalPostsByCategory] compares post objects by identity
    ([Array.prototype.includes]), so the objects of [data.posts] and the
    ones the code builds carry the address they were allocated at. The
    state of a computation is the next free address. *)

Abbreviation loc := nat.

Definition JS (A : Type) : Type := loc → result A * loc.

#[global] Instance JS_ret : MRet JS := λ A a h, (Ok a, h).
#[global] Instance JS_bind : MBind JS := λ A B f m h,
  match m h with
  | (Ok a, h') => f a h'
  | (Throw e, h') => (Throw e, h')
  end.

Definition throw {A} (e : exn) : JS A := λ h, (Throw e, h).

Definition try_catch {A} (body : JS A) (handler : exn → JS A) : JS A := λ h,
  match body h with
  | (Ok a, h') => (Ok a, h')
  | (Throw e, h') => handler e h'
  end.

Definition lift {A} (r : result A) : JS A := λ h, (r, h).

(** An object literal: a new object at the next free address. *)
Definition alloc {A} (a : A) : JS (loc * A) := λ h, (Ok (h, a), S h).

(** [l.map(f)] *)
Fixpoint Array_map {A B} (f : A → JS B) (l : list A) : JS (list B) :=
  match l with
  | [] => mret []
  | x :: l' => y ← f x; r ← Array_map f l'; mret (y :: r)
  end.

(** [l.includes(x)] for objects: same address. *)
Definition Array_includes {A} (l : list (loc * A)) (x : loc * A) : bool :=
  bool_decide (x.1 ∈ l.*1).

(** [l.slice(0, e)] *)
Definition Array_slice0 {A} (e : Z) (l : list A) : list A :=
  if 0 <=? e then take (Z.to_nat e) l
  else take (length l - Z.to_nat (- e)) l.

(** *** Reading a [Record<string, string[]>] literal

    [r[k]] finds the own property [k], else a property inherited from
    [Object.prototype] (a function or an object, never an array), else
    [undefined]. *)

Inductive property := Own (a : list string) | Inherited | Absent.

Definition Object_prototype_properties : list string :=
  ["constructor"; "__defineGetter__"; "__defineSetter__"; "hasOwnProperty";
   "__lookupGetter__"; "__lookupSetter__"; "isPrototypeOf";
   "propertyIsEnumerable"; "toString"; "valueOf"; "__proto__";
   "toLocaleString"].

Definition Record_get (r : gmap string (list string)) (k : string) : property :=
  match r !! k with
  | Some a => Own a
  | None => if bool_decide (k ∈ Object_prototype_properties) then Inherited else Absent
  end.

(** [p || d]: an array and an inherited value are truthy; [None] is a
    value that is not an array. *)
Definition or_array (p : property) (d : list string) : option (list string) :=
  match p with
  | Own a => Some a
  | Inherited => None
  | Absent => Some d
  end.

(** [a.some(f)]: a [TypeError] when [a] has no method [some]. *)
Definition some_of (a : option (list string)) (f : string → result bool) : result bool :=
  match a with
  | Some a => Array_some f a
  | None => Throw TypeError
  end.

Definition known_categories : list string :=
  ["technology"; "travel"; "food"; "lifestyle"; "health"].

Definition categoryToTags : gmap string (list string) :=
  list_to_map
    [("technology", ["tech"; "digital"; "programming"; "computer"; "technology";
                     "software"; "hardware"; "app"; "innovation"]);
     ("travel", ["travel"; "trip"; "adventure"; "vacation"; "journey"; "tourism";
                 "destination"; "explore"; "world"]);
     ("food", ["food"; "cooking"; "recipe"; "cuisine"; "meal"; "restaurant";
               "dinner"; "lunch"; "breakfast"; "eat"]);
     ("lifestyle", ["lifestyle"; "life"; "living"; "family"; "home"; "personal";
                    "style"; "trends"; "fashion"]);
     ("health", ["health"; "fitness"; "wellness"; "exercise"; "medical";
                 "nutrition"; "workout"; "diet"; "mental"])].

Definition categoryKeywords : gmap string (list string) :=
  list_to_map
    [("technology", ["new"; "digital"; "future"; "smart"; "device"; "online";
                     "virtual"; "product"]);
     ("travel", ["visit"; "place"; "country"; "hotel"; "experience"; "flight";
                 "tour"; "holiday"]);
     ("food", ["delicious"; "tasty"; "recipe"; "cook"; "restaurant"; "chef";
               "ingredients"; "flavor"]);
     ("lifestyle", ["trend"; "modern"; "style"; "design"; "fashion"; "home";
                    "decoration"; "living"]);
     ("health", ["healthy"; "exercise"; "fitness"; "diet"; "nutrition"; "weight";
                 "wellness"; "body"])].

(** The [categoryToTags] of the branch for the other categories. *)
Definition categoryToTags_other : gmap string (list string) :=
  list_to_map
    [("writing", ["writing"; "writer"; "blog"; "content"; "author"; "blogging";
                  "story"; "fiction"])].

(** [post.tags.some(tag => matchingTags.some(matchTag =>
      tag.toLowerCase().includes(matchTag)))] *)
Definition tagMatch (matchingTags : option (list string)) (post : ExternalBlogPost.t)
  : result bool :=
  Array_some (λ tag,
      some_of matchingTags (λ matchTag,
        Ok (JsString.includes (JsString.toLowerCase tag) matchTag)))
    (ExternalBlogPost.tags post).

Definition contentMatch (matchingKeywords : option (list string))
  (post : ExternalBlogPost.t) : result bool :=
  some_of matchingKeywords (λ keyword,
    Ok (JsString.includes (JsString.toLowerCase (ExternalBlogPost.title post)) keyword
        || JsString.includes (JsString.toLowerCase (ExternalBlogPost.body post)) keyword)).

(** The callback of the first [filter] of the branch for the five
    categories with keyword sets. *)
Definition qualifies (matchingTags matchingKeywords : option (list string))
  (post : loc * ExternalBlogPost.t) : result bool :=
  t ← tagMatch matchingTags post.2;
  c ← contentMatch matchingKeywords post.2;
  Ok (t || c).

(** [[c, ...post.tags.filter(tag => tag.toLowerCase() !== c)]] *)
Definition retag (c : string) (post : ExternalBlogPost.t) : ExternalBlogPost.t :=
  ExternalBlogPost.set_tags
    (c :: List.filter (λ tag, negb (String.eqb (JsString.toLowerCase tag) c))
            (ExternalBlogPost.tags post))
    post.

(** [[c, ...post.tags]] *)
Definition pretag (c : string) (post : ExternalBlogPost.t) : ExternalBlogPost.t :=
  ExternalBlogPost.set_tags (c :: ExternalBlogPost.tags post) post.

(** *** The network *)

(** A body that is not JSON, JSON without an array [posts], or a
    payload of the declared type. *)
Inductive body_outcome :=
| NotJson
| NoPosts
| Json (data : ExternalApiResponse).

Inductive fetch_outcome :=
| NetworkError
| Response (ok : bool) (body : body_outcome).

(** The request failed, the response is not ok, or its body does not
    parse or has no posts. *)
Definition is_failure (o : fetch_outcome) : bool :=
  match o with
  | NetworkError => true
  | Response false _ => true
  | Response true NotJson => true
  | Response true NoPosts => true
  | Response true (Json _) => false
  end.

Section Environment.

(** [clock h]: the time when the object at address [h] is allocated. *)
Variable clock : loc → Z.
Variable fetch : string → fetch_outcome.
Variable encodeURIComponent : string → string.

Definition new_Date : JS Z := λ h, (Ok (clock h), S h).

(** [await fetch(url)]: the response, as its [ok] flag and its body. *)
Definition await_fetch (url : string) : JS (bool * body_outcome) :=
  match fetch url with
  | NetworkError => throw TypeError
  | Response ok body => mret (ok, body)
  end.

(** [await response.json()], read at [data.posts]: the parsed posts are
    new objects. Without an array [posts] the first call of a method of
    [data.posts], which is what follows in each function, throws. *)
Definition response_json (response : bool * body_outcome)
  : JS (list (loc * ExternalBlogPost.t)) :=
  match response.2 with
  | NotJson => throw SyntaxError
  | NoPosts => throw TypeError
  | Json data => Array_map alloc (posts data)
  end.

(** The call [mapExternalPostToSchema(post)]. *)
Definition call_mapExternalPostToSchema (post : loc * ExternalBlogPost.t) : JS Post.t :=
  now ← new_Date;
  mret (mapExternalPostToSchema now post.2).

(** [post => { const mappedPost = mapExternalPostToSchema(post);
              mappedPost.category = c; return mappedPost; }] *)
Definition map_with_category (c : string) (post : loc * ExternalBlogPost.t) : JS Post.t :=
  mappedPost ← call_mapExternalPostToSchema post;
  mret (Post.set_category c mappedPost).

Definition fetchExternalPosts (limit skip : Z) : JS (list Post.t) :=
  try_catch
    (response ← await_fetch ("https://dummyjson.com/posts?limit="
                  +:+ JsString.ofNumber limit +:+ "&skip=" +:+ JsString.ofNumber skip);
     if negb response.1 then throw (Error "Failed to fetch posts from external API")
     else
       data_posts ← response_json response;
       Array_map call_mapExternalPostToSchema data_posts)
    (λ _, mret []).

(** The branch for technology, travel, food, lifestyle and health. *)
Definition fetch_known_category (category : string) : JS (list Post.t) :=
  response ← await_fetch "https://dummyjson.com/posts?limit=100";
  if negb response.1 then throw (Error "Failed to fetch posts from external API")
  else
    data_posts ← response_json response;
    let c := JsString.toLowerCase category in
    let matchingTags := or_array (Record_get categoryToTags c) [c] in
    let matchingKeywords := or_array (Record_get categoryKeywords c) [] in
    filteredPosts ← lift (Array_filter (qualifies matchingTags matchingKeywords) data_posts);
    filteredPosts ← Array_map (λ post, alloc (retag c post.2)) filteredPosts;
    filteredPosts ←
      (if (Z.of_nat (length filteredPosts) <? 5) then
         additionalPosts ←
           Array_map (λ post, alloc (pretag c post.2))
             (Array_slice0 (10 - Z.of_nat (length filteredPosts))
                (List.filter (λ post, negb (Array_includes filteredPosts post)) data_posts));
         mret (filteredPosts ++ additionalPosts)
       else mret filteredPosts);
    Array_map (map_with_category c) filteredPosts.

(** The branch for every other category. *)
Definition fetch_other_category (category : string) : JS (list Post.t) :=
  response ← await_fetch "https://dummyjson.com/posts?limit=100";
  if negb response.1 then throw (Error "Failed to fetch posts from external API")
  else
    data_posts ← response_json response;
    let c := JsString.toLowerCase category in
    let matchingTags := or_array (Record_get categoryToTags_other c) [c] in
    filteredPosts ← lift (Array_filter (λ post, tagMatch matchingTags post.2) data_posts);
    if decide (length filteredPosts = 0%nat) then
      Array_map (map_with_category c) (Array_slice0 6 data_posts)
    else
      Array_map (map_with_category c) filteredPosts.

Definition fetchExternalPostsByCategory (category : string) : JS (list Post.t) :=
  try_catch
    (if String.eqb category "all" then fetchExternalPosts 20 0
     else if bool_decide (JsString.toLowerCase category ∈ known_categories) then
       fetch_known_category category
     else fetch_other_category category)
    (λ _, mret []).

Definition searchExternalPosts (query : string) : JS (list Post.t) :=
  try_catch
    (response ← await_fetch ("https://dummyjson.com/posts/search?q="
                  +:+ encodeURIComponent query);
     if negb response.1 then throw (Error "Failed to search posts from external API")
     else
       data_posts ← response_json response;
       Array_map call_mapExternalPostToSchema data_posts)
    (λ _, mret []).

End Environment.

End ApiService.

(** ** The aggregation pipeline ([HomePage]) *)

(** [[...l].sort(compareFn)]: the sort is stable, so with a consistent
    comparator its result is that of a stable insertion sort: an element
    goes before the first one it does not compare greater than. *)
Section Array_sort.
Context {A : Type} (compareFn : A → A → Z).

Fixpoint sort_insert (x : A) (sorted : list A) : list A :=
  match sorted with
  | [] => [x]
  | y :: rest => if compareFn x y <=? 0 then x :: sorted else y :: sort_insert x rest
  end.

Definition Array_sort (l : list A) : list A := foldr sort_insert [] l.

(** [a] may stand before [b]. *)
Definition not_after (a b : A) : Prop := compareFn a b <= 0.

End Array_sort.

Module HomePage.

Section Pipeline.

(** [a.localeCompare(b)]: the collation of the browser's locale. *)
Variable localeCompare : string → string → Z.

(** [new Date(post.createdAt || 0).getTime()] *)
Definition getTime (post : Post.t) : Z := default 0 (Post.createdAt post).

Definition compareFn (sortBy : string) (a b : Post.t) : Z :=
  if String.eqb sortBy "oldest" then getTime a - getTime b
  else if String.eqb sortBy "title_asc" then localeCompare (Post.title a) (Post.title b)
  else if String.eqb sortBy "title_desc" then localeCompare (Post.title b) (Post.title a)
  else getTime b - getTime a.

Definition filter_category (selectedCategory : string) (posts : list Post.t)
  : list Post.t :=
  if negb (String.eqb selectedCategory "all") then
    List.filter (λ post,
        match Post.category post with
        | Some c => String.eqb (JsString.toLowerCase c) selectedCategory
        | None => false
        end) posts
  else posts.

Definition filter_search (searchQuery : string) (posts : list Post.t) : list Post.t :=
  if negb (String.eqb searchQuery "") then
    let query := JsString.toLowerCase searchQuery in
    List.filter (λ post,
        JsString.includes (JsString.toLowerCase (Post.title post)) query
        || JsString.includes (JsString.toLowerCase (Post.content post)) query
        || match Post.tags post with
           | Some tags => JsString.includes (JsString.toLowerCase tags) query
           | None => false
           end) posts
  else posts.

(** [const posts = [...internalPosts, ...externalPosts]] *)
Definition posts (internalPosts externalPosts : list Post.t) : list Post.t :=
  internalPosts ++ externalPosts.

(** The value the three [map] stages hand to [setFilteredPosts]. *)
Definition filteredPosts (posts : list Post.t)
  (selectedCategory searchQuery sortBy : string) : list Post.t :=
  Array_sort (compareFn sortBy)
    (filter_search searchQuery (filter_category selectedCategory posts)).

End Pipeline.

End HomePage.

(** A collation is consistent when swapping the arguments flips the sign
    and "not after" is transitive. *)
Definition consistent_collation (localeCompare : string → string → Z) : Prop :=
  (∀ a b, Z.sgn (localeCompare b a) = - Z.sgn (localeCompare a b))
  ∧ (∀ a b c, localeCompare a b <= 0 → localeCompare b c <= 0 → localeCompare a c <= 0).

(** Comparison by code units, one consistent collation. *)
Definition codeUnitCompare (a b : string) : Z :=
  match String_as_OT.compare a b with
  | Lt => -1
  | Eq => 0
  | Gt => 1
  end.

(** ** The category branches in closed form

    What the two branches compute when the request succeeds, written on
    the posts of the payload; the properties below relate the code to
    these. *)

(** The first [filter] of the branch with keyword sets, on arrays. *)
Definition qualifies_known (matchingTags matchingKeywords : list string)
  (post : ExternalBlogPost.t) : bool :=
  existsb (λ tag,
      existsb (λ matchTag, JsString.includes (JsString.toLowerCase tag) matchTag)
        matchingTags)
    (ExternalBlogPost.tags post)
  || existsb (λ keyword,
         JsString.includes (JsString.toLowerCase (ExternalBlogPost.title post)) keyword
         || JsString.includes (JsString.toLowerCase (ExternalBlogPost.body post)) keyword)
       matchingKeywords.

(** The external posts the branch with keyword sets maps: the matching
    ones re-tagged, then, below five, the first [10 - n] posts of the
    payload. *)
Definition known_selection (c : string) (matchingTags matchingKeywords : list string)
  (posts : list ExternalBlogPost.t) : list ExternalBlogPost.t :=
  let matched := List.filter (qualifies_known matchingTags matchingKeywords) posts in
  (ApiService.retag c <$> matched)
  ++ (if Z.of_nat (length matched) <? 5
      then ApiService.pretag c <$> take (10 - length matched)%nat posts
      else []).

(** The mapped posts: the [i]-th one is mapped at the [i]-th reading of
    the clock from address [h] on, and carries category [c]. *)
Definition mapped_with_category (clock : ApiService.loc → Z) (c : string)
  (h : ApiService.loc) (chosen : list ExternalBlogPost.t) : list Post.t :=
  zip_with (λ now post, Post.set_category c (ApiService.mapExternalPostToSchema now post))
    (clock <$> seq h (length chosen)) chosen.

(** [result] is [payload] mapped post by post. *)
Definition mapped_each (result : list Post.t) (payload : list ExternalBlogPost.t) : Prop :=
  Forall2 (λ mapped post, ∃ now, mapped = ApiService.mapExternalPostToSchema now post)
    result payload.

(** The tags the branch for the other categories looks for. *)
Definition matching_tags_other (c : string) : list string :=
  default [c] (ApiService.categoryToTags_other !! c).

(** A post qualifies in that branch: one of its tags, case folded,
    contains one of the tags looked for. *)
Definition tag_qualifies (c : string) (post : ExternalBlogPost.t) : Prop :=
  ∃ tag matchTag,
    tag ∈ ExternalBlogPost.tags post
    ∧ matchTag ∈ matching_tags_other c
    ∧ JsString.substring_of matchTag (JsString.toLowerCase tag).

(** The same test as a function. *)
Definition tag_qualifies_b (c : string) (post : ExternalBlogPost.t) : bool :=
  existsb (λ tag,
      existsb (λ matchTag, JsString.includes (JsString.toLowerCase tag) matchTag)
        (matching_tags_other c))
    (ExternalBlogPost.tags post).

(** The external posts the branch for the other categories maps. *)
Definition other_selection (c : string) (posts : list ExternalBlogPost.t)
  : list ExternalBlogPost.t :=
  let selected := List.filter (tag_qualifies_b c) posts in
  if decide (selected = []) then take 6 posts else selected.

(** [result] is [chosen] mapped post by post, with category [c]. *)
Definition mapped_from (c : string) (result : list Post.t)
  (chosen : list ExternalBlogPost.t) : Prop :=
  Forall2 (λ mapped post,
      ∃ now, mapped = Post.set_category c (ApiService.mapExternalPostToSchema now post))
    result chosen.

(** ** Sample data *)

(** A new store after one [createPost]. *)
Definition sample_store : Storage.MemStorage :=
  (Storage.createPost (list_to_map [("title", VStr "T"); ("content", VStr "C")]) 1000
     Storage.constructor).2.

(** A store with one post titled CAFE in capitals, its last letter the
    capital E acute (code unit 201), and the same word in small letters
    (small e acute is code unit 233). *)
Definition cafe_capitals : string := "CAF" +:+ String (ascii_of_nat 201) "".

Definition cafe_small : string := "caf" +:+ String (ascii_of_nat 233) "".

Definition cafe_store : Storage.MemStorage :=
  (Storage.createPost
     (list_to_map [("title", VStr cafe_capitals); ("content", VStr "C")]) 1000
     Storage.constructor).2.

(** An environment: a clock, a network that answers every request with
    the given posts, and one that fails every request. *)
Definition sample_clock : ApiService.loc → Z := λ h, 5000 + Z.of_nat h.

Definition answering_fetch (posts : list ExternalBlogPost.t)
  : string → ApiService.fetch_outcome :=
  λ _, ApiService.Response true
         (ApiService.Json
            {| ApiService.posts := posts; ApiService.total := Z.of_nat (length posts);
               ApiService.skip := 0; ApiService.limit := 100 |}).

Definition failing_fetch : string → ApiService.fetch_outcome :=
  λ _, ApiService.NetworkError.

(** The requests of the three functions. *)
Definition posts_url (limit skip : Z) : string :=
  "https://dummyjson.com/posts?limit=" +:+ JsString.ofNumber limit
  +:+ "&skip=" +:+ JsString.ofNumber skip.

Definition category_url (category : string) : string :=
  if String.eqb category "all" then posts_url 20 0
  else "https://dummyjson.com/posts?limit=100".

Definition search_url (encodeURIComponent : string → string) (query : string) : string :=
  "https://dummyjson.com/posts/search?q=" +:+ encodeURIComponent query.

(** A validator that accepts every body and keeps the fields of
    [insertPostSchema]. *)
Definition keep_post_fields (o : obj) : option obj :=
  Some (filter (λ kv : string * value,
          kv.1 ∈ ["title"; "content"; "imageUrl"; "category"; "tags"; "authorId";
                  "published"]) o).

(** A store with one post of user 7 and one comment of user 7 on it. *)
Definition commented_store : Storage.MemStorage :=
  (Storage.createComment
     (list_to_map [("content", VStr "hello"); ("authorId", VNum 7); ("postId", VNum 1)])
     2000
     (Storage.createPost
        (list_to_map [("title", VStr "T"); ("content", VStr "C"); ("authorId", VNum 7)])
        1000 Storage.constructor).2).2.

(** An authenticated request of user 8, who is no admin, on id 1. *)
Definition request_of_user_8 : Routes.request :=
  {| Routes.isAuthenticated := true;
     Routes.user := list_to_map [("id", VNum 8); ("username", VStr "eve");
                                 ("isAdmin", VBool false)];
     Routes.param := Some 1;
     Routes.body := {["title" := VStr "U"]} |}.

(** A validator for comments: the content must be a string; the three
    insert fields are kept. *)
Definition keep_comment_fields (o : obj) : option obj :=
  match prop o "content" with
  | VStr _ =>
      Some (filter (λ kv : string * value, kv.1 ∈ ["content"; "authorId"; "postId"]) o)
  | _ => None
  end.

(** A comment of user 8 on post 1; the body also names another author. *)
Definition comment_of_user_8 : Routes.request :=
  {| Routes.isAuthenticated := true;
     Routes.user := list_to_map [("id", VNum 8); ("username", VStr "eve");
                                 ("isAdmin", VBool false)];
     Routes.param := Some 1;
     Routes.body := list_to_map [("content", VStr "hi"); ("authorId", VNum 7)] |}.

(** The same request made by user 7. *)
Definition request_of_user_7 : Routes.request :=
  {| Routes.isAuthenticated := true;
     Routes.user := list_to_map [("id", VNum 7); ("username", VStr "ann");
                                 ("isAdmin", VBool false)];
     Routes.param := Some 1;
     Routes.body := list_to_map [("title", VStr "U"); ("id", VNum 99)] |}.

(** Two creations with an update and a deletion of the first post
    between them. *)
Definition create_update_delete_create : list Storage.post_op :=
  [Storage.OpCreate {["title" := VStr "A"]} 10;
   Storage.OpUpdate 1 {["title" := VStr "B"]};
   Storage.OpDelete 1;
   Storage.OpCreate {["title" := VStr "C"]} 20].

(** Two posts with one title, and a post without createdAt beside one
    created at the epoch. *)
Definition same_title_posts : list Post.t :=
  [Post.mk 1 "A" "first" None None None (Some 1000) None None;
   Post.mk 2 "A" "second" None None None (Some 2000) None None].

Definition epoch_posts : list Post.t :=
  [Post.mk 1 "A" "first" None None None None None None;
   Post.mk 2 "B" "second" None None None (Some 0) None None].

(** Four posts of which the first and the third have one creation
    time. *)
Definition tied_posts : list Post.t :=
  [Post.mk 1 "Local" "first" None None None (Some 1000) None None;
   Post.mk 2 "Newest" "second" None None None (Some 3000) None None;
   Post.mk 101 "External" "third" None None None (Some 1000) None None;
   Post.mk 3 "Middle" "fourth" None None None (Some 2000) None None].

Definition apple_banana : list Post.t :=
  [Post.mk 1 "Apple" "first" None None None (Some 1000) None None;
   Post.mk 2 "Banana" "second" None None None (Some 2000) None None].

(** Twelve source posts: the first has the tag recipe, the others match
    nothing of the category food. *)
Definition food_source : list ExternalBlogPost.t :=
  ExternalBlogPost.mk 1 "Post" "text" 1 ["recipe"] 0
  :: ((λ n, ExternalBlogPost.mk n "Post" "text" 1 ["history"] 0)
        <$> [2; 3; 4; 5; 6; 7; 8; 9; 10; 11; 12]).

(** Seven source posts: none has the tag art, the last has the tag party. *)
Definition art_source : list ExternalBlogPost.t :=
  ((λ n, ExternalBlogPost.mk n "Post" "text" 1 ["history"] 0) <$> [1; 2; 3; 4; 5; 6])
  ++ [ExternalBlogPost.mk 7 "Post" "text" 1 ["party"] 0].

(** No two entries of [l] at different positions compare equal. *)
Definition no_ties {A} (compareFn : A → A → Z) (l : list A) : Prop :=
  ∀ i j a b, l !! i = Some a → l !! j = Some b → i ≠ j → compareFn a b ≠ 0.

(** * Properties *)

(** ** Strings *)

Lemma append_cons (c : ascii) (a b : string) : String c a +:+ b = String c (a +:+ b).
Proof. reflexivity. Qed.

Lemma prefix_spec (a s : string) :
  String.prefix a s = true ↔ ∃ post, s = a +:+ post.
Proof.
  revert s. induction a as [|c a IH]; intros s; simpl.
  - destruct s; split; eauto.
  - destruct s as [|d s]; simpl.
    + split; [done|]. intros [post H]. rewrite append_cons in H. discriminate.
    + destruct (Ascii.ascii_dec c d) as [->|Hne].
      * rewrite IH. split; intros [post H]; exists post;
          rewrite append_cons in *; congruence.
      * split; [done|]. intros [post H]. rewrite append_cons in H. congruence.
Qed.

Lemma includes_unfold (s sub : string) :
  JsString.includes s sub =
  String.prefix sub s ||
    match s with EmptyString => false | String _ s' => JsString.includes s' sub end.
Proof. destruct s; reflexivity. Qed.

Lemma includes_spec (s sub : string) :
  JsString.includes s sub = true ↔ JsString.substring_of sub s.
Proof.
  unfold JsString.substring_of. induction s as [|c s IH]; rewrite includes_unfold.
  - rewrite orb_false_r, prefix_spec. split.
    + intros [post H]. exists "", post. done.
    + intros [pre [post H]]. destruct pre; [eauto|].
      rewrite append_cons in H. discriminate.
  - rewrite orb_true_iff, prefix_spec, IH. split.
    + intros [[post H]|[pre [post H]]].
      * exists "", post. done.
      * exists (String c pre), post. rewrite append_cons. by rewrite H.
    + intros [pre [post H]]. destruct pre as [|d pre].
      * left. eauto.
      * right. exists pre, post. rewrite append_cons in H. congruence.
Qed.


Lemma includes_infix (pre sub post : string) :
  JsString.includes (pre +:+ sub +:+ post) sub = true.
Proof. apply includes_spec. by exists pre, post. Qed.

(** *** Letter case *)








(** ** The [Map] operations on entries with distinct keys *)

Section JsMap_facts.
Context {V : Type}.
Implicit Types (m : list (Z * V)) (k : Z) (v : V).

Lemma Map_get_None m k : Map_get k m = None ↔ k ∉ m.*1.
Proof.
  induction m as [|[k' v'] m IH]; simpl.
  - split; [|done]. intros _. apply not_elem_of_nil.
  - rewrite not_elem_of_cons. case_decide; subst.
    + split; [done|]. intros [Hne _]. done.
    + rewrite IH. split; [intros ?; split; [congruence|done] | intros [_ ?]; done].
Qed.

Lemma Map_get_Some m k v :
  NoDup m.*1 → Map_get k m = Some v →
  ∃ m1 m2, m = m1 ++ (k, v) :: m2 ∧ (k ∉ m1.*1) ∧ (k ∉ m2.*1).
Proof.
  induction m as [|[k' v'] m IH]; simpl; [done|].
  intros Hnd Hget. apply NoDup_cons in Hnd as [Hk' Hnd].
  case_decide; simplify_eq.
  - exists [], m. split_and!; [done|apply not_elem_of_nil|done].
  - destruct (IH Hnd Hget) as (m1 & m2 & -> & H1 & H2).
    exists ((k', v') :: m1), m2. split_and!; [done| |done].
    simpl. rewrite not_elem_of_cons. done.
Qed.

Lemma Map_set_fresh m k v : k ∉ m.*1 → Map_set k v m = m ++ [(k, v)].
Proof.
  induction m as [|[k' v'] m IH]; simpl; [done|].
  rewrite not_elem_of_cons. intros [Hne Hk]. case_decide; [congruence|].
  by rewrite IH.
Qed.

Lemma Map_set_at m1 m2 k v v' :
  k ∉ m1.*1 → Map_set k v' (m1 ++ (k, v) :: m2) = m1 ++ (k, v') :: m2.
Proof.
  induction m1 as [|[k' w] m1 IH]; simpl.
  - intros _. case_decide; done.
  - rewrite not_elem_of_cons. intros [Hne Hk]. case_decide; [congruence|].
    by rewrite IH.
Qed.

Lemma Map_delete_absent m k : k ∉ m.*1 → Map_delete k m = (false, m).
Proof.
  induction m as [|[k' w] m IH]; simpl; [done|].
  rewrite not_elem_of_cons. intros [Hne Hk]. case_decide; [congruence|].
  by rewrite IH.
Qed.

Lemma Map_delete_at m1 m2 k v :
  k ∉ m1.*1 → Map_delete k (m1 ++ (k, v) :: m2) = (true, m1 ++ m2).
Proof.
  induction m1 as [|[k' w] m1 IH]; simpl.
  - intros _. case_decide; done.
  - rewrite not_elem_of_cons. intros [Hne Hk]. case_decide; [congruence|].
    by rewrite IH.
Qed.

End JsMap_facts.

(** ** The entity store *)

Section Storage_facts.
Import Storage.

Lemma survivors_app ops m1 m2 :
  survivors ops (m1 ++ m2) = survivors ops m1 ++ survivors ops m2.
Proof. apply omap_app. Qed.

Lemma survivors_nil m : survivors [] m = Map_values m.
Proof. induction m as [|[k v] m IH]; simpl; [done|]. by rewrite <-IH. Qed.

Lemma survivors_create insertPost now ops m :
  survivors (OpCreate insertPost now :: ops) m = survivors ops m.
Proof. done. Qed.

Lemma survivors_other_update id postUpdate ops m :
  id ∉ m.*1 → survivors (OpUpdate id postUpdate :: ops) m = survivors ops m.
Proof.
  induction m as [|[k v] m IH]; simpl; [done|].
  rewrite not_elem_of_cons. intros [Hne Hid].
  unfold survivors in *. simpl in *. rewrite IH by done.
  destruct (decide (id = k)); [congruence|done].
Qed.

Lemma survivors_other_delete id ops m :
  id ∉ m.*1 → survivors (OpDelete id :: ops) m = survivors ops m.
Proof.
  induction m as [|[k v] m IH]; simpl; [done|].
  rewrite not_elem_of_cons. intros [Hne Hid].
  unfold survivors in *. simpl in *. rewrite IH by done.
  rewrite bool_decide_eq_false_2 by done. done.
Qed.

Lemma step_posts_ok st op : posts_ok st → posts_ok (step st op).
Proof.
  intros [Hnd Hlt]. destruct op as [insertPost now|id postUpdate|id]; simpl.
  - unfold posts_ok; simpl.
    assert (currentPostId st ∉ (posts st).*1) as Hfresh.
    { intros Hin. rewrite Forall_forall in Hlt. apply Hlt in Hin. lia. }
    rewrite Map_set_fresh by done. rewrite fmap_app. simpl. split.
    + apply NoDup_app. split_and!; [done| |apply NoDup_singleton].
      intros k Hk ->%list_elem_of_singleton. done.
    + apply Forall_app. split.
      * eapply Forall_impl; [done|]. simpl. lia.
      * apply Forall_singleton. lia.
  - unfold updatePost. destruct (Map_get id (posts st)) as [post|] eqn:Hget; [|done].
    destruct (Map_get_Some _ _ _ Hnd Hget) as (m1 & m2 & Hm & H1 & H2).
    unfold posts_ok; simpl. rewrite Hm in *. rewrite Map_set_at by done.
    rewrite !fmap_app in *. done.
  - unfold deletePost. destruct (Map_delete id (posts st)) as [existed posts'] eqn:Hdel.
    unfold posts_ok; simpl.
    destruct (Map_get id (posts st)) as [post|] eqn:Hget.
    + destruct (Map_get_Some _ _ _ Hnd Hget) as (m1 & m2 & Hm & H1 & H2).
      rewrite Hm in *. rewrite Map_delete_at in Hdel by done. simplify_eq.
      rewrite !fmap_app in *. simpl in *.
      apply NoDup_app in Hnd as (? & Hd & ?%NoDup_cons_1_2).
      apply Forall_app in Hlt as [Hlt1 [_ Hlt2]%Forall_cons_1]. split.
      * apply NoDup_app. split_and!; [done| |done].
        intros k Hk Hk'. eapply Hd; [done|]. by right.
      * apply Forall_app. done.
    + apply Map_get_None in Hget. rewrite Map_delete_absent in Hdel by done.
      by simplify_eq.
Qed.

Lemma getAllPosts_run ops st :
  posts_ok st →
  getAllPosts (run ops st)
  = survivors ops (posts st) ++ expected_posts (currentPostId st) ops.
Proof.
  revert st. induction ops as [|op ops IH]; intros st Hok.
  { simpl. by rewrite survivors_nil, app_nil_r. }
  change (run (op :: ops) st) with (run ops (step st op)).
  rewrite IH by by apply step_posts_ok.
  destruct Hok as [Hnd Hlt].
  destruct op as [insertPost now|id postUpdate|id]; simpl.
  - assert (currentPostId st ∉ (posts st).*1) as Hfresh.
    { intros Hin. rewrite Forall_forall in Hlt. apply Hlt in Hin. lia. }
    rewrite Map_set_fresh by done. rewrite survivors_app, survivors_create.
    rewrite <-app_assoc. f_equal. f_equal.
    unfold survivors, created_record. simpl.
    by destruct (deleted_later _ _).
  - unfold updatePost. destruct (Map_get id (posts st)) as [post|] eqn:Hget.
    + destruct (Map_get_Some _ _ _ Hnd Hget) as (m1 & m2 & Hm & H1 & H2).
      simpl. f_equal. rewrite Hm. rewrite Map_set_at by done.
      rewrite !survivors_app. rewrite survivors_other_update by done.
      f_equal. change ((id, post) :: m2) with ([(id, post)] ++ m2).
      change ((id, spread post postUpdate) :: m2)
        with ([(id, spread post postUpdate)] ++ m2).
      rewrite !survivors_app. rewrite (survivors_other_update _ _ _ m2) by done.
      f_equal. unfold survivors. simpl. rewrite decide_True by done. done.
    + apply Map_get_None in Hget. by rewrite survivors_other_update.
  - unfold deletePost. destruct (Map_delete id (posts st)) as [existed posts'] eqn:Hdel.
    simpl. f_equal.
    destruct (Map_get id (posts st)) as [post|] eqn:Hget.
    + destruct (Map_get_Some _ _ _ Hnd Hget) as (m1 & m2 & Hm & H1 & H2).
      rewrite Hm in *. rewrite Map_delete_at in Hdel by done. simplify_eq.
      rewrite !survivors_app. rewrite survivors_other_delete by done.
      f_equal. change ((id, post) :: m2) with ([(id, post)] ++ m2).
      rewrite survivors_app. rewrite (survivors_other_delete _ _ m2) by done.
      unfold survivors at 2. simpl. rewrite bool_decide_eq_true_2 by done. done.
    + apply Map_get_None in Hget. rewrite Map_delete_absent in Hdel by done.
      simplify_eq. by rewrite survivors_other_delete.
Qed.

Lemma spread_lookup (a b : obj) k :
  spread a b !! k = match b !! k with Some v => Some v | None => a !! k end.
Proof.
  unfold spread. destruct (b !! k) as [v|] eqn:Hb.
  - by apply lookup_union_Some_l.
  - by apply lookup_union_r.
Qed.

Lemma constructor_posts_ok : posts_ok constructor.
Proof. split; simpl; [apply NoDup_nil_2|apply Forall_nil_2]. Qed.

(** C1: after any sequence of createPost, updatePost and deletePost on a
    new store, getAllPosts returns, in creation order, exactly the posts
    created and not deleted afterwards, each one its created record
    merged with its later updates in order; in a merge a field of the
    update overwrites and a field it omits keeps its value. *)
Theorem getAllPosts_after_operations (ops : list post_op) :
  getAllPosts (run ops constructor) = expected_posts 1 ops
  ∧ ∀ (post postUpdate : obj) (k : string),
      spread post postUpdate !! k
      = match postUpdate !! k with Some v => Some v | None => post !! k end.
Proof.
  split.
  - rewrite getAllPosts_run by apply constructor_posts_ok. done.
  - apply spread_lookup.
Qed.


Example expected_posts_example :
  expected_posts 1
    [OpCreate {["title" := VStr "A"]} 10; OpCreate {["title" := VStr "B"]} 20;
     OpUpdate 1 {["content" := VStr "c"]}; OpDelete 2; OpUpdate 2 {["title" := VStr "X"]}]
  = [ list_to_map [("title", VStr "A"); ("id", VNum 1); ("createdAt", VDate 10);
                   ("content", VStr "c")] ].
Proof. vm_compute. reflexivity. Qed.

Lemma Map_get_set {V} (m : list (Z * V)) k v v' :
  Map_get k m = Some v → Map_get k (Map_set k v' m) = Some v'.
Proof.
  induction m as [|[k' w] m IH]; simpl; [done|].
  case_decide; simpl; intros Hget.
  - by rewrite decide_True.
  - rewrite decide_False by done. auto.
Qed.

(** C2, as the code has it: updatePost stores and returns the shallow
    merge of the stored post and the partial. Every property of the
    partial overwrites, every property it omits is retained; id and
    createdAt therefore keep their values whenever the partial has no
    property of that name. *)
Theorem updatePost_shallow_merge (st : MemStorage) (id : Z) (post postUpdate : obj) :
  getPost id st = Some post →
  ∃ post',
    (updatePost id postUpdate st).1 = Some post'
    ∧ getPost id (updatePost id postUpdate st).2 = Some post'
    ∧ (∀ k v, postUpdate !! k = Some v → post' !! k = Some v)
    ∧ (∀ k, postUpdate !! k = None → post' !! k = post !! k)
    ∧ (postUpdate !! "id" = None → prop post' "id" = prop post "id")
    ∧ (postUpdate !! "createdAt" = None →
       prop post' "createdAt" = prop post "createdAt").
Proof.
  unfold getPost, updatePost. intros Hget. rewrite Hget. simpl.
  exists (spread post postUpdate). split_and!.
  - done.
  - by eapply Map_get_set.
  - intros k v Hk. by rewrite spread_lookup, Hk.
  - intros k Hk. by rewrite spread_lookup, Hk.
  - intros Hk. unfold prop. by rewrite spread_lookup, Hk.
  - intros Hk. unfold prop. by rewrite spread_lookup, Hk.
Qed.

Lemma updatePost_shallow_merge_witness :
  getPost 1 sample_store
  = Some (list_to_map [("title", VStr "T"); ("content", VStr "C");
                       ("id", VNum 1); ("createdAt", VDate 1000)])
  ∧ ∃ post',
    (updatePost 1 {["title" := VStr "U"]} sample_store).1 = Some post'
    ∧ getPost 1 (updatePost 1 {["title" := VStr "U"]} sample_store).2 = Some post'
    ∧ (∀ k v, ({["title" := VStr "U"]} : obj) !! k = Some v → post' !! k = Some v)
    ∧ (∀ k, ({["title" := VStr "U"]} : obj) !! k = None →
         post' !! k
         = (list_to_map [("title", VStr "T"); ("content", VStr "C");
                         ("id", VNum 1); ("createdAt", VDate 1000)] : obj) !! k)
    ∧ (({["title" := VStr "U"]} : obj) !! "id" = None →
       prop post' "id"
       = prop (list_to_map [("title", VStr "T"); ("content", VStr "C");
                            ("id", VNum 1); ("createdAt", VDate 1000)]) "id")
    ∧ (({["title" := VStr "U"]} : obj) !! "createdAt" = None →
       prop post' "createdAt"
       = prop (list_to_map [("title", VStr "T"); ("content", VStr "C");
                            ("id", VNum 1); ("createdAt", VDate 1000)]) "createdAt").
Proof.
  split; [vm_compute; reflexivity|].
  apply (updatePost_shallow_merge sample_store 1). vm_compute. reflexivity.
Defined.

(** C2 as stated fails: a partial that carries an id or a createdAt
    property overwrites the stored one. *)
Lemma updatePost_partial_with_id_overwrites :
  ∃ post post' post'',
    getPost 1 sample_store = Some post
    ∧ (updatePost 1 {["id" := VNum 99]} sample_store).1 = Some post'
    ∧ (updatePost 1 {["createdAt" := VDate 5]} sample_store).1 = Some post''
    ∧ prop post "id" = VNum 1 ∧ prop post' "id" = VNum 99
    ∧ prop post "createdAt" = VDate 1000 ∧ prop post'' "createdAt" = VDate 5.
Proof.
  eexists _, _, _. split_and!; vm_compute; reflexivity.
Qed.

(** C3, at the input where the code departs from it: the seeded store
    has a user named admin, and createUser with that username stores a
    second one under id 2 and raises nothing. *)
Theorem createUser_accepts_duplicate_username :
  let insertUser : obj := list_to_map [("username", VStr "admin"); ("password", VStr "x")] in
  let '(user, st') := createUser insertUser constructor in
  (∃ first, getUserByUsername "admin" constructor = Some first)
  ∧ prop user "username" = VStr "admin"
  ∧ prop user "id" = VNum 2
  ∧ (λ u, prop u "username") <$> getAllUsers st' = [VStr "admin"; VStr "admin"].
Proof. vm_compute. split_and!; eauto. Qed.

(** What createUser does on every input: the next id, isAdmin false
    whatever the input says, the user stored and returned. *)
Lemma createUser_assigns (insertUser : obj) (st : MemStorage) :
  let '(user, st') := createUser insertUser st in
  prop user "id" = VNum (currentUserId st)
  ∧ prop user "isAdmin" = VBool false
  ∧ (∀ k, k ≠ "id" → k ≠ "isAdmin" → user !! k = insertUser !! k)
  ∧ currentUserId st' = currentUserId st + 1
  ∧ (currentUserId st ∉ (users st).*1 → getAllUsers st' = getAllUsers st ++ [user]).
Proof.
  unfold createUser, getAllUsers, prop; simpl. split_and!.
  - by rewrite lookup_insert_ne, lookup_insert_eq.
  - by rewrite lookup_insert_eq.
  - intros k H1 H2. by rewrite !lookup_insert_ne.
  - done.
  - intros Hfresh. rewrite Map_set_fresh by done. unfold Map_values.
    by rewrite fmap_app.
Qed.







(** The search ignores letter case: the query t finds the title T, and
    the word in small letters finds the title in capitals, also at the
    letter outside ASCII; a query that is no substring finds nothing. *)
Example searchPosts_ignores_case :
  (∃ post, searchPosts "t" sample_store = Ok [post] ∧ prop post "title" = VStr "T")
  ∧ (∃ post, searchPosts cafe_small cafe_store = Ok [post]
             ∧ prop post "title" = VStr cafe_capitals)
  ∧ searchPosts "x" sample_store = Ok [].
Proof.
  split_and!.
  - eexists. split; [reflexivity|]. reflexivity.
  - eexists. split; [reflexivity|]. reflexivity.
  - reflexivity.
Qed.

End Storage_facts.

(** ** The external content mapper *)

Section Mapper_facts.
Import ApiService.

(** The specification's example. *)
Example mapExternalPostToSchema_example :
  mapExternalPostToSchema 1000 (ExternalBlogPost.mk 7 "T" "B" 3 ["tech"; "x"] 5)
  = Post.mk 7 "T" "B" (Some "https://picsum.photos/seed/7/800/500") (Some "tech")
      (Some "tech,x") (Some 1000) (Some 3) (Some true).
Proof. vm_compute. reflexivity. Qed.

(** C6, as the code has it: content is the body, authorId the userId,
    tags the tags joined by commas, imageUrl a fixed text around the
    decimal id (so it contains the id and depends on nothing else),
    published is true; category is the first tag when there is one and it
    is not the empty string, and "Uncategorized" otherwise. *)
Theorem mapExternalPostToSchema_fields (now : Z) (post : ExternalBlogPost.t) :
  let mapped := mapExternalPostToSchema now post in
  Post.content mapped = ExternalBlogPost.body post
  ∧ Post.authorId mapped = Some (ExternalBlogPost.userId post)
  ∧ Post.category mapped
    = Some (match ExternalBlogPost.tags post with
            | [] => "Uncategorized"
            | first :: _ => if decide (first = "") then "Uncategorized" else first
            end)
  ∧ Post.tags mapped = Some (JsString.join (ExternalBlogPost.tags post) ",")
  ∧ (∃ imageUrl, Post.imageUrl mapped = Some imageUrl
       ∧ JsString.includes imageUrl (JsString.ofNumber (ExternalBlogPost.id post)) = true
       ∧ ∀ now' post', ExternalBlogPost.id post' = ExternalBlogPost.id post →
           Post.imageUrl (mapExternalPostToSchema now' post') = Some imageUrl)
  ∧ Post.published mapped = Some true.
Proof.
  simpl. split_and!; try done.
  - destruct (ExternalBlogPost.tags post) as [|first rest]; [done|]. simpl.
    destruct first; [done|]. by destruct (decide _).
  - eexists. split_and!; [done|apply includes_infix|].
    intros now' post' ->. done.
Qed.

(** C6 as stated fails when the tag list starts with the empty string:
    the list is not empty, yet the category is not its first element. *)
Lemma mapExternalPostToSchema_empty_first_tag :
  let post := ExternalBlogPost.mk 7 "T" "B" 3 [""; "x"] 5 in
  ExternalBlogPost.tags post ≠ []
  ∧ head (ExternalBlogPost.tags post) = Some ""
  ∧ Post.category (mapExternalPostToSchema 1000 post) = Some "Uncategorized".
Proof. split_and!; done. Qed.

End Mapper_facts.

Section Fetch_facts.
Import ApiService.
Variable clock : loc → Z.
Variable fetch : string → fetch_outcome.
Variable encodeURIComponent : string → string.

Lemma failed_request_throws url h :
  is_failure (fetch url) = true →
  ∀ (k : list (loc * ExternalBlogPost.t) → JS (list Post.t)) message,
  ∃ e h',
    (response ← await_fetch fetch url;
     if negb response.1 then throw (Error message)
     else data_posts ← response_json response; k data_posts) h
    = (Throw e, h').
Proof.
  intros Hfail k message. unfold await_fetch, mbind, JS_bind.
  destruct (fetch url) as [|[] []]; simpl in *; try done; eauto.
Qed.

Lemma try_catch_throw {A} (body : JS A) (handler : exn → JS A) h e h' :
  body h = (Throw e, h') → try_catch body handler h = handler e h'.
Proof. unfold try_catch. by intros ->. Qed.

(** C9: when the request fails, the response is not ok or its body does
    not parse, each of the three functions returns the empty sequence. *)
Theorem failed_fetch_gives_no_posts :
  (∀ limit skip h,
     is_failure (fetch (posts_url limit skip)) = true →
     (fetchExternalPosts clock fetch limit skip h).1 = Ok [])
  ∧ (∀ category h,
       is_failure (fetch (category_url category)) = true →
       (fetchExternalPostsByCategory clock fetch category h).1 = Ok [])
  ∧ (∀ query h,
       is_failure (fetch (search_url encodeURIComponent query)) = true →
       (searchExternalPosts clock fetch encodeURIComponent query h).1 = Ok []).
Proof.
  split_and!.
  - intros limit skip h Hfail. unfold fetchExternalPosts.
    edestruct (failed_request_throws _ h Hfail) as (e & h' & Hthrow).
    erewrite try_catch_throw; [|apply Hthrow]. done.
  - intros category h Hfail. unfold fetchExternalPostsByCategory, category_url in *.
    destruct (String.eqb category "all").
    + unfold fetchExternalPosts, try_catch at 1.
      edestruct (failed_request_throws _ h Hfail) as (e & h' & Hthrow).
      erewrite try_catch_throw; [|apply Hthrow]. done.
    + case_bool_decide.
      * unfold fetch_known_category.
        edestruct (failed_request_throws _ h Hfail) as (e & h' & Hthrow).
        erewrite try_catch_throw; [|apply Hthrow]. done.
      * unfold fetch_other_category.
        edestruct (failed_request_throws _ h Hfail) as (e & h' & Hthrow).
        erewrite try_catch_throw; [|apply Hthrow]. done.
  - intros query h Hfail. unfold searchExternalPosts.
    edestruct (failed_request_throws _ h Hfail) as (e & h' & Hthrow).
    erewrite try_catch_throw; [|apply Hthrow]. done.
Qed.

End Fetch_facts.

Lemma failed_fetch_gives_no_posts_witness :
  (ApiService.is_failure (failing_fetch (posts_url 10 0)) = true
   ∧ (ApiService.fetchExternalPosts sample_clock failing_fetch 10 0 0%nat).1 = Ok [])
  ∧ (ApiService.is_failure (failing_fetch (category_url "food")) = true
     ∧ (ApiService.fetchExternalPostsByCategory sample_clock failing_fetch "food" 0%nat).1
       = Ok [])
  ∧ (ApiService.is_failure (failing_fetch (search_url (λ s, s) "cats")) = true
     ∧ (ApiService.searchExternalPosts sample_clock failing_fetch (λ s, s) "cats" 0%nat).1
       = Ok []).
Proof.
  pose proof (failed_fetch_gives_no_posts sample_clock failing_fetch (λ s, s))
    as (H1 & H2 & H3).
  split; [|split].
  - split; [reflexivity|]. apply H1. reflexivity.
  - split; [reflexivity|]. apply H2. reflexivity.
  - split; [reflexivity|]. apply H3. reflexivity.
Defined.

(** ** Local and external posts together *)

(** C10: the mapper keeps the external post's id, so the sequence
    HomePage builds from the store's posts and the fetched ones can hold
    two different posts with one id: the first local post and the
    external post 1. *)
Theorem external_ids_not_rekeyed :
  (∀ now post,
     Post.id (ApiService.mapExternalPostToSchema now post) = ExternalBlogPost.id post)
  ∧ ∃ (internalPosts externalPosts : list Post.t) (p q : Post.t),
      mapM Post_of_obj (Storage.getAllPosts sample_store) = Some internalPosts
      ∧ (ApiService.fetchExternalPosts sample_clock
           (answering_fetch [ExternalBlogPost.mk 1 "E" "body" 9 ["history"] 0])
           20 0 0%nat).1 = Ok externalPosts
      ∧ HomePage.posts internalPosts externalPosts = [p; q]
      ∧ p ≠ q
      ∧ Post.id p = Post.id q.
Proof.
  split; [done|].
  eexists _, _, _, _. split_and!.
  - vm_compute. reflexivity.
  - vm_compute. reflexivity.
  - reflexivity.
  - discriminate.
  - reflexivity.
Qed.

(** ** Sorting *)

Section Array_sort_facts.
Context {A : Type} (compareFn : A → A → Z).

(** The comparator is consistent. *)
Hypothesis compareFn_flip : ∀ a b, Z.sgn (compareFn b a) = - Z.sgn (compareFn a b).
Hypothesis compareFn_trans :
  ∀ a b c, compareFn a b <= 0 → compareFn b c <= 0 → compareFn a c <= 0.

Lemma sort_insert_Permutation x l : sort_insert compareFn x l ≡ₚ x :: l.
Proof.
  induction l as [|y l IH]; simpl; [done|].
  destruct (compareFn x y <=? 0); [done|]. rewrite IH. apply Permutation_swap.
Qed.

Lemma Array_sort_Permutation l : Array_sort compareFn l ≡ₚ l.
Proof.
  induction l as [|x l IH]; simpl; [done|].
  rewrite sort_insert_Permutation. by rewrite IH.
Qed.

Lemma not_after_total a b : not_after compareFn a b ∨ not_after compareFn b a.
Proof.
  unfold not_after. pose proof (compareFn_flip a b).
  destruct (Z.sgn_spec (compareFn a b)) as [[? ?]|[[? ?]|[? ?]]];
    destruct (Z.sgn_spec (compareFn b a)) as [[? ?]|[[? ?]|[? ?]]]; lia.
Qed.

Lemma sort_insert_Sorted x l :
  Sorted (not_after compareFn) l → Sorted (not_after compareFn) (sort_insert compareFn x l).
Proof.
  induction 1 as [|y l Hl IH Hhd]; simpl.
  - repeat constructor.
  - destruct (Z.leb_spec (compareFn x y) 0) as [Hle|Hgt].
    + repeat constructor; done.
    + constructor; [done|].
      assert (not_after compareFn y x) as Hyx.
      { destruct (not_after_total x y); [unfold not_after in *; lia|done]. }
      destruct Hhd as [|z l' Hyz]; simpl.
      * by constructor.
      * destruct (compareFn x z <=? 0); by constructor.
Qed.

Lemma Array_sort_Sorted l : Sorted (not_after compareFn) (Array_sort compareFn l).
Proof.
  induction l as [|x l IH]; simpl; [constructor|]. by apply sort_insert_Sorted.
Qed.

End Array_sort_facts.

Section Array_sort_mirror.
Context {A : Type} (compareFn : A → A → Z).
Hypothesis compareFn_flip : ∀ a b, Z.sgn (compareFn b a) = - Z.sgn (compareFn a b).
Hypothesis compareFn_trans :
  ∀ a b c, compareFn a b <= 0 → compareFn b c <= 0 → compareFn a c <= 0.

(** Without ties, sorting by the flipped comparator gives the reversed
    order. *)
Lemma Array_sort_flip l :
  (∀ a b, a ∈ l → b ∈ l → compareFn a b = 0 → a = b) →
  Array_sort (flip compareFn) l = reverse (Array_sort compareFn l).
Proof.
  intros Hties.
  assert (∀ a b, Z.sgn (flip compareFn b a) = - Z.sgn (flip compareFn a b)) as Hflip'.
  { intros a b. unfold flip. apply compareFn_flip. }
  assert (∀ a b c, flip compareFn a b <= 0 → flip compareFn b c <= 0 →
                   flip compareFn a c <= 0) as Htrans'.
  { intros a b c ??. unfold flip in *. by eapply compareFn_trans. }
  assert (Transitive (λ a b : A, flip compareFn a b <= 0)) as Htr.
  { intros a b c. apply Htrans'. }
  apply (Sorted_unique_strong (λ a b, flip compareFn a b <= 0)).
  - intros a b Ha Hb Hab Hba. unfold flip in *.
    rewrite Array_sort_Permutation in Ha.
    rewrite reverse_Permutation, Array_sort_Permutation in Hb.
    apply Hties; [done..|].
    pose proof (compareFn_flip a b).
    destruct (Z.sgn_spec (compareFn a b)) as [[? ?]|[[? ?]|[? ?]]];
      destruct (Z.sgn_spec (compareFn b a)) as [[? ?]|[[? ?]|[? ?]]]; lia.
  - by apply Array_sort_Sorted.
  - apply (Sorted_reverse (λ a b, compareFn a b <= 0)).
    by apply Array_sort_Sorted.
  - rewrite reverse_Permutation. by rewrite !Array_sort_Permutation.
Qed.

End Array_sort_mirror.

(** ** The aggregation pipeline *)

Lemma String_lt_asym a b : String_as_OT.lt a b → String_as_OT.lt b a → False.
Proof. intros H1 H2. apply (irreflexivity String_as_OT.lt a). by etrans. Qed.

Lemma String_lt_irrefl a : String_as_OT.lt a a → False.
Proof. apply (irreflexivity String_as_OT.lt). Qed.

Lemma codeUnitCompare_not_after a b :
  codeUnitCompare a b <= 0 ↔ a = b ∨ String_as_OT.lt a b.
Proof.
  unfold codeUnitCompare.
  destruct (String_as_OT.compare_spec a b) as [E|Hlt|Hgt].
  - split; [by left|lia].
  - split; [by right|lia].
  - split; [lia|]. intros [E|Hlt]; exfalso.
    + subst. by eapply String_lt_irrefl.
    + by eapply String_lt_asym.
Qed.

Lemma codeUnitCompare_consistent : consistent_collation codeUnitCompare.
Proof.
  split.
  - intros a b. unfold codeUnitCompare.
    destruct (String_as_OT.compare_spec a b) as [E|Hlt|Hgt];
      destruct (String_as_OT.compare_spec b a) as [E'|Hlt'|Hgt'];
      try done; exfalso; unfold String_as_OT.eq in *; subst;
      first [by eapply String_lt_irrefl | by eapply String_lt_asym].
  - intros a b c. rewrite !codeUnitCompare_not_after.
    intros [->|Hab] [->|Hbc]; auto. right. by etrans.
Qed.

Section Pipeline_facts.
Import HomePage.
Variable localeCompare : string → string → Z.
Hypothesis localeCompare_consistent : consistent_collation localeCompare.

Lemma compareFn_latest :
  compareFn localeCompare "latest" = flip (compareFn localeCompare "oldest").
Proof. reflexivity. Qed.

Lemma compareFn_title_asc :
  compareFn localeCompare "title_asc" = flip (compareFn localeCompare "title_desc").
Proof. reflexivity. Qed.

Lemma compareFn_oldest_consistent :
  (∀ a b, Z.sgn (compareFn localeCompare "oldest" b a)
          = - Z.sgn (compareFn localeCompare "oldest" a b))
  ∧ (∀ a b c, compareFn localeCompare "oldest" a b <= 0 →
              compareFn localeCompare "oldest" b c <= 0 →
              compareFn localeCompare "oldest" a c <= 0).
Proof.
  split.
  - intros a b. change (Z.sgn (getTime b - getTime a) = - Z.sgn (getTime a - getTime b)).
    rewrite <-Z.sgn_opp. f_equal. lia.
  - intros a b c. change (getTime a - getTime b <= 0 → getTime b - getTime c <= 0 →
                          getTime a - getTime c <= 0). lia.
Qed.

Lemma compareFn_title_desc_consistent :
  (∀ a b, Z.sgn (compareFn localeCompare "title_desc" b a)
          = - Z.sgn (compareFn localeCompare "title_desc" a b))
  ∧ (∀ a b c, compareFn localeCompare "title_desc" a b <= 0 →
              compareFn localeCompare "title_desc" b c <= 0 →
              compareFn localeCompare "title_desc" a c <= 0).
Proof.
  destruct localeCompare_consistent as [Hflip Htrans]. split.
  - intros a b. apply Hflip.
  - intros a b c H1 H2. exact (Htrans _ _ _ H2 H1).
Qed.

Lemma List_filter_sublist {A} (f : A → bool) (l : list A) :
  List.filter f l `sublist_of` l.
Proof.
  induction l as [|x l IH]; simpl; [done|].
  destruct (f x); by constructor.
Qed.

Lemma filter_stages_sublist posts selectedCategory searchQuery :
  filter_search searchQuery (filter_category selectedCategory posts) `sublist_of` posts.
Proof.
  unfold filter_search, filter_category.
  destruct (negb (String.eqb searchQuery "")), (negb (String.eqb selectedCategory "all")).
  - etrans; apply List_filter_sublist.
  - apply List_filter_sublist.
  - apply List_filter_sublist.
  - done.
Qed.

Lemma no_ties_sublist {A} (compareFn : A → A → Z) (l1 l2 : list A) :
  l1 `sublist_of` l2 → no_ties compareFn l2 → no_ties compareFn l1.
Proof.
  induction 1 as [|x l1 l2 Hsub IH|x l1 l2 Hsub IH]; intros Hties.
  - done.
  - assert (no_ties compareFn l1) as IH'.
    { apply IH. intros i j a b Hi Hj Hne. apply (Hties (S i) (S j)); [done..|lia]. }
    intros [|i] [|j] a b Hi Hj Hne; simpl in *; simplify_eq.
    + apply list_elem_of_lookup_2 in Hj. eapply elem_of_sublist in Hj; [|done].
      apply list_elem_of_lookup_1 in Hj as [j' Hj'].
      by apply (Hties 0%nat (S j')).
    + apply list_elem_of_lookup_2 in Hi. eapply elem_of_sublist in Hi; [|done].
      apply list_elem_of_lookup_1 in Hi as [i' Hi'].
      by apply (Hties (S i') 0%nat).
    + apply (IH' i j); [done..|lia].
  - apply IH. intros i j a b Hi Hj Hne. apply (Hties (S i) (S j)); [done..|lia].
Qed.

Lemma no_ties_elements {A} (compareFn : A → A → Z) (l : list A) :
  no_ties compareFn l → ∀ a b, a ∈ l → b ∈ l → compareFn a b = 0 → a = b.
Proof.
  intros Hties a b [i Hi]%list_elem_of_lookup_1 [j Hj]%list_elem_of_lookup_1 Hab.
  destruct (decide (i = j)) as [->|Hne]; [congruence|].
  by destruct (Hties i j a b).
Qed.

(** C5, as the code has it: with the category and the search query
    fixed, the output under latest is the reverse of the output under
    oldest when no two posts have the same time (a missing createdAt
    counting as the epoch), and the output under title_asc is the reverse
    of the output under title_desc when no two posts have titles that
    compare equal. *)
Theorem sort_orders_mirror (posts : list Post.t) (selectedCategory searchQuery : string) :
  (no_ties (λ a b, getTime a - getTime b) posts →
   filteredPosts localeCompare posts selectedCategory searchQuery "latest"
   = reverse (filteredPosts localeCompare posts selectedCategory searchQuery "oldest"))
  ∧ (no_ties (λ a b, localeCompare (Post.title a) (Post.title b)) posts →
     filteredPosts localeCompare posts selectedCategory searchQuery "title_asc"
     = reverse (filteredPosts localeCompare posts selectedCategory searchQuery "title_desc")).
Proof.
  unfold filteredPosts. split; intros Hties.
  - rewrite compareFn_latest.
    destruct compareFn_oldest_consistent as [Hflip Htrans].
    apply Array_sort_flip; [done..|].
    apply no_ties_elements. eapply no_ties_sublist; [apply filter_stages_sublist|done].
  - rewrite compareFn_title_asc.
    destruct compareFn_title_desc_consistent as [Hflip Htrans].
    apply Array_sort_flip; [done..|].
    apply no_ties_elements. eapply no_ties_sublist; [apply filter_stages_sublist|].
    intros i j a b Hi Hj Hne. change (localeCompare (Post.title b) (Post.title a) ≠ 0).
    apply (Hties j i); [done..|lia].
Qed.

End Pipeline_facts.

(** The specification's end-to-end examples. *)
Example latest_puts_newest_first :
  Post.id <$> HomePage.filteredPosts codeUnitCompare apple_banana "all" "" "latest"
  = [2; 1].
Proof. vm_compute. reflexivity. Qed.

Example title_desc_puts_Banana_first :
  Post.title <$> HomePage.filteredPosts codeUnitCompare apple_banana "all" "" "title_desc"
  = ["Banana"; "Apple"].
Proof. vm_compute. reflexivity. Qed.

Lemma sort_orders_mirror_witness :
  consistent_collation codeUnitCompare
  ∧ (no_ties (λ a b, HomePage.getTime a - HomePage.getTime b) apple_banana
     ∧ HomePage.filteredPosts codeUnitCompare apple_banana "all" "" "latest"
       = reverse (HomePage.filteredPosts codeUnitCompare apple_banana "all" "" "oldest"))
  ∧ (no_ties (λ a b, codeUnitCompare (Post.title a) (Post.title b)) apple_banana
     ∧ HomePage.filteredPosts codeUnitCompare apple_banana "all" "" "title_asc"
       = reverse (HomePage.filteredPosts codeUnitCompare apple_banana "all" "" "title_desc")).
Proof.
  assert (no_ties (λ a b, HomePage.getTime a - HomePage.getTime b) apple_banana) as Htime.
  { intros [|[|i]] [|[|j]] a b Hi Hj Hne; simplify_eq/=; try done; vm_compute; by intros ?. }
  assert (no_ties (λ a b, codeUnitCompare (Post.title a) (Post.title b)) apple_banana)
    as Htitle.
  { intros [|[|i]] [|[|j]] a b Hi Hj Hne; simplify_eq/=; try done; vm_compute; by intros ?. }
  pose proof (sort_orders_mirror codeUnitCompare codeUnitCompare_consistent
                apple_banana "all" "") as [H1 H2].
  split; [exact codeUnitCompare_consistent|]. split.
  - split; [exact Htime|]. exact (H1 Htime).
  - split; [exact Htitle|]. exact (H2 Htitle).
Defined.

(** C5 as stated fails. Two posts with one title come out in the same
    order under title_asc and title_desc; and a post without createdAt
    and a post created at the epoch, which share no createdAt value, come
    out in the same order under latest and oldest. *)
Lemma sort_orders_not_mirrored_on_ties :
  consistent_collation codeUnitCompare
  ∧ HomePage.filteredPosts codeUnitCompare same_title_posts "all" "" "title_asc"
    ≠ reverse (HomePage.filteredPosts codeUnitCompare same_title_posts "all" "" "title_desc")
  ∧ NoDup (Post.createdAt <$> same_title_posts)
  ∧ NoDup (Post.createdAt <$> epoch_posts)
  ∧ HomePage.filteredPosts codeUnitCompare epoch_posts "all" "" "latest"
    ≠ reverse (HomePage.filteredPosts codeUnitCompare epoch_posts "all" "" "oldest").
Proof.
  split_and!.
  - exact codeUnitCompare_consistent.
  - vm_compute. discriminate.
  - apply (bool_decide_unpack _). vm_compute. exact I.
  - apply (bool_decide_unpack _). vm_compute. exact I.
  - vm_compute. discriminate.
Qed.

(** ** Fetching by category *)

Section Category_facts.
Import ApiService.
Variable clock : loc → Z.
Variable fetch : string → fetch_outcome.

Lemma bind_Ok {A B} (m : JS A) (f : A → JS B) h a h' :
  m h = (Ok a, h') → (m ≫= f) h = f a h'.
Proof. unfold mbind, JS_bind. by intros ->. Qed.

Lemma Array_map_alloc {A B} (g : A → B) (l : list A) h :
  Array_map (λ x, alloc (g x)) l h
  = (Ok (zip (seq h (length l)) (g <$> l)), (h + length l)%nat).
Proof.
  revert h. induction l as [|x l IH]; intros h; simpl.
  - unfold mret, JS_ret. f_equal. lia.
  - erewrite bind_Ok; [|reflexivity]. erewrite bind_Ok; [|apply IH].
    unfold mret, JS_ret. f_equal. lia.
Qed.

Lemma Array_map_map_with_category c (l : list (loc * ExternalBlogPost.t)) h :
  Array_map (map_with_category clock c) l h
  = (Ok (mapped_with_category clock c h l.*2), (h + length l)%nat).
Proof.
  revert h. induction l as [|x l IH]; intros h.
  - simpl. unfold mret, JS_ret. f_equal. lia.
  - cbn [Array_map]. erewrite bind_Ok; [|reflexivity]. erewrite bind_Ok; [|apply IH].
    unfold mret, JS_ret, mapped_with_category.
    rewrite fmap_cons, !length_fmap. cbn [length seq fmap list_fmap zip_with].
    rewrite !length_fmap. f_equal. lia.
Qed.

Lemma Array_some_pure {A} (f : A → result bool) (g : A → bool) (l : list A) :
  (∀ x, f x = Ok (g x)) → Array_some f l = Ok (existsb g l).
Proof.
  intros Hf. induction l as [|x l IH]; simpl; [done|].
  rewrite Hf. simpl. by destruct (g x).
Qed.

Lemma Array_filter_pure {A} (f : A → result bool) (g : A → bool) (l : list A) :
  (∀ x, f x = Ok (g x)) → Array_filter f l = Ok (List.filter g l).
Proof.
  intros Hf. induction l as [|x l IH]; simpl; [done|].
  rewrite Hf, IH. simpl. by destruct (g x).
Qed.

Lemma tagMatch_arrays matchingTags (post : ExternalBlogPost.t) :
  tagMatch (Some matchingTags) post
  = Ok (existsb (λ tag,
          existsb (λ matchTag, JsString.includes (JsString.toLowerCase tag) matchTag)
            matchingTags)
        (ExternalBlogPost.tags post)).
Proof.
  unfold tagMatch. apply Array_some_pure. intros tag. by apply Array_some_pure.
Qed.

Lemma contentMatch_arrays matchingKeywords (post : ExternalBlogPost.t) :
  contentMatch (Some matchingKeywords) post
  = Ok (existsb (λ keyword,
          JsString.includes (JsString.toLowerCase (ExternalBlogPost.title post)) keyword
          || JsString.includes (JsString.toLowerCase (ExternalBlogPost.body post)) keyword)
        matchingKeywords).
Proof. unfold contentMatch. by apply Array_some_pure. Qed.

Lemma qualifies_arrays matchingTags matchingKeywords (post : loc * ExternalBlogPost.t) :
  qualifies (Some matchingTags) (Some matchingKeywords) post
  = Ok (qualifies_known matchingTags matchingKeywords post.2).
Proof.
  unfold qualifies. by rewrite tagMatch_arrays, contentMatch_arrays.
Qed.

Lemma List_filter_snd {A B} (g : B → bool) (l : list (A * B)) :
  (List.filter (λ p, g p.2) l).*2 = List.filter g l.*2.
Proof.
  induction l as [|[a b] l IH]; [done|].
  rewrite fmap_cons. cbn [List.filter snd].
  destruct (g b); rewrite ?fmap_cons; cbn [snd]; by rewrite IH.
Qed.

Lemma List_filter_all {A} (f : A → bool) (l : list A) :
  Forall (λ x, f x = true) l → List.filter f l = l.
Proof. induction 1 as [|x l Hx _ IH]; simpl; [done|]. by rewrite Hx, IH. Qed.

(** The objects built from the matching posts are new, so none of the
    payload's posts is among them. *)
Lemma payload_posts_not_included {A} (bound : loc) (payload built : list (loc * A)) :
  Forall (λ a, a < bound)%nat payload.*1 →
  Forall (λ a, bound ≤ a)%nat built.*1 →
  List.filter (λ post, negb (Array_includes built post)) payload = payload.
Proof.
  intros Hpayload Hbuilt. apply List_filter_all, Forall_forall. intros post Hin.
  apply negb_true_iff, bool_decide_eq_false. intros Hpost.
  rewrite Forall_forall in Hpayload, Hbuilt.
  apply Hbuilt in Hpost. apply (list_elem_of_fmap_2 fst) in Hin.
  apply Hpayload in Hin. lia.
Qed.

Lemma seq_below h n : Forall (λ a, a < h + n)%nat (seq h n).
Proof. apply Forall_forall. intros a Ha%elem_of_seq. lia. Qed.

Lemma seq_above h n : Forall (λ a, h ≤ a)%nat (seq h n).
Proof. apply Forall_forall. intros a Ha%elem_of_seq. lia. Qed.

Lemma known_category_lookups c :
  c ∈ known_categories →
  ∃ matchingTags matchingKeywords,
    or_array (Record_get categoryToTags c) [c] = Some matchingTags
    ∧ or_array (Record_get categoryKeywords c) [] = Some matchingKeywords
    ∧ categoryToTags !! c = Some matchingTags
    ∧ categoryKeywords !! c = Some matchingKeywords.
Proof.
  intros Hc. apply list_elem_of_In in Hc. simpl in Hc.
  destruct Hc as [<-|[<-|[<-|[<-|[<-|[]]]]]];
    eexists _, _; split_and!; vm_compute; reflexivity.
Qed.

Lemma same_mapped c (a a' b b' : loc) chosen :
  a = a' → b = b' →
  (Ok (mapped_with_category clock c a chosen), b)
  = (Ok (mapped_with_category clock c a' chosen), b').
Proof. by intros -> ->. Qed.

(** The branch with keyword sets, on a successful request. *)
Lemma fetch_known_category_closed_form category data matchingTags matchingKeywords h :
  let c := JsString.toLowerCase category in
  fetch "https://dummyjson.com/posts?limit=100" = Response true (Json data) →
  categoryToTags !! c = Some matchingTags →
  categoryKeywords !! c = Some matchingKeywords →
  let chosen := known_selection c matchingTags matchingKeywords (posts data) in
  fetch_known_category clock fetch category h
  = (Ok (mapped_with_category clock c (h + length (posts data) + length chosen)%nat
           chosen),
     (h + length (posts data) + length chosen + length chosen)%nat).
Proof.
  intros c Hfetch Htags Hkeywords chosen. unfold fetch_known_category.
  erewrite bind_Ok; [|unfold await_fetch; rewrite Hfetch; reflexivity]. simpl.
  erewrite bind_Ok; [|unfold response_json; simpl; apply (Array_map_alloc id)].
  rewrite list_fmap_id. fold c.
  unfold Record_get. rewrite Htags, Hkeywords. simpl.
  set (D := zip (seq h (length (posts data))) (posts data)).
  assert (D.*2 = posts data) as HD2.
  { apply snd_zip. rewrite length_seq. lia. }
  assert (length D = length (posts data)) as HDlen.
  { by rewrite <-HD2, length_fmap. }
  set (matched := List.filter (qualifies_known matchingTags matchingKeywords) (posts data)).
  erewrite bind_Ok;
    [|unfold lift; erewrite Array_filter_pure; [reflexivity|apply qualifies_arrays]].
  set (F0 := List.filter (λ post : loc * ExternalBlogPost.t,
                 qualifies_known matchingTags matchingKeywords post.2) D).
  assert (F0.*2 = matched) as HF0.
  { unfold F0, matched.
    etrans; [apply (List_filter_snd (qualifies_known matchingTags matchingKeywords))|].
    by rewrite HD2. }
  assert (length F0 = length matched) as HF0len.
  { by rewrite <-HF0, length_fmap. }
  erewrite bind_Ok; [|apply (Array_map_alloc (λ post, retag c post.2))].
  rewrite length_zip, length_seq, length_fmap, Nat.min_id, HF0len.
  assert (((λ post : loc * ExternalBlogPost.t, retag c post.2) <$> F0)
          = retag c <$> matched) as ->.
  { rewrite <-HF0. by rewrite <-list_fmap_compose. }
  set (F1 := zip (seq (h + length (posts data)) (length matched)) (retag c <$> matched)).
  assert (F1.*2 = retag c <$> matched) as HF1.
  { apply snd_zip. rewrite length_seq, length_fmap. lia. }
  assert (length F1 = length matched) as HF1len.
  { by rewrite <-(length_fmap snd), HF1, length_fmap. }
  unfold chosen, known_selection. fold matched.
  destruct (Z.of_nat (length matched) <? 5) eqn:Hfew.
  - apply Z.ltb_lt in Hfew.
    rewrite (payload_posts_not_included (h + length (posts data)) D F1); cycle 1.
    { unfold D. rewrite fst_zip by (rewrite length_seq; lia). apply seq_below. }
    { unfold F1. rewrite fst_zip by (rewrite length_seq, length_fmap; lia).
      apply seq_above. }
    unfold Array_slice0. rewrite (proj2 (Z.leb_le _ _)) by lia.
    replace (Z.to_nat (10 - Z.of_nat (length matched))) with (10 - length matched)%nat by lia.
    erewrite bind_Ok;
      [|erewrite bind_Ok; [|apply (Array_map_alloc (λ post, pretag c post.2))];
        reflexivity].
    rewrite Array_map_map_with_category.
    rewrite fmap_app, HF1, snd_zip by (rewrite length_seq, length_fmap; lia).
    assert (((λ post : loc * ExternalBlogPost.t, pretag c post.2)
               <$> take (10 - length matched) D)
            = pretag c <$> take (10 - length matched) (posts data)) as ->.
    { rewrite <-HD2. rewrite <-fmap_take. by rewrite <-list_fmap_compose. }
    rewrite !length_app, !length_zip, !length_seq, !length_fmap, !length_take, HDlen.
    rewrite HF1len.
    apply same_mapped; lia.
  - erewrite bind_Ok; [|reflexivity].
    rewrite Array_map_map_with_category, HF1, app_nil_r, length_fmap, HF1len.
    apply same_mapped; lia.
Qed.

Lemma try_catch_Ok {A} (body : JS A) (handler : exn → JS A) h a h' :
  body h = (Ok a, h') → try_catch body handler h = (Ok a, h').
Proof. unfold try_catch. by intros ->. Qed.

Lemma not_all_of_lower category :
  JsString.toLowerCase category ≠ "all" → String.eqb category "all" = false.
Proof. intros Hne. apply String.eqb_neq. by intros ->. Qed.

(** fetchExternalPostsByCategory on one of the five categories with
    keyword sets, when the request succeeds: the matching posts
    re-tagged, padded below five with the first posts of the payload,
    already included or not, each mapped with the category. *)
Lemma fetchExternalPostsByCategory_known category data h :
  let c := JsString.toLowerCase category in
  c ∈ known_categories →
  fetch "https://dummyjson.com/posts?limit=100" = Response true (Json data) →
  ∃ matchingTags matchingKeywords,
    categoryToTags !! c = Some matchingTags
    ∧ categoryKeywords !! c = Some matchingKeywords
    ∧ let chosen := known_selection c matchingTags matchingKeywords (posts data) in
      (fetchExternalPostsByCategory clock fetch category h).1
      = Ok (mapped_with_category clock c (h + length (posts data) + length chosen)%nat
              chosen).
Proof.
  intros c Hc Hfetch.
  destruct (known_category_lookups c Hc) as (tags & keywords & _ & _ & Htags & Hkeywords).
  exists tags, keywords. split_and!; [done..|]. intros chosen.
  unfold fetchExternalPostsByCategory.
  erewrite try_catch_Ok; [done|].
  rewrite not_all_of_lower.
  - rewrite bool_decide_eq_true_2 by done.
    by apply fetch_known_category_closed_form.
  - intros Hall. fold c in Hall. rewrite Hall in Hc.
    apply list_elem_of_In in Hc. simpl in Hc. by repeat destruct Hc as [Hc|Hc].
Qed.

Lemma mapped_with_category_mapped_from c h chosen :
  mapped_from c (mapped_with_category clock c h chosen) chosen.
Proof.
  unfold mapped_from, mapped_with_category. revert h.
  induction chosen as [|post chosen IH]; intros h; simpl; [constructor|].
  constructor; [by eexists|]. apply IH.
Qed.

Lemma mapped_from_category c result chosen :
  mapped_from c result chosen → Forall (λ post, Post.category post = Some c) result.
Proof.
  induction 1 as [|mapped post result chosen [now ->] _ IH]; constructor; done.
Qed.

Lemma mapped_from_ids c result chosen :
  mapped_from c result chosen → Post.id <$> result = ExternalBlogPost.id <$> chosen.
Proof.
  induction 1 as [|mapped post result chosen [now ->] _ IH]; [done|].
  rewrite !fmap_cons, IH. done.
Qed.

Lemma mapped_from_tags c result chosen :
  mapped_from c result chosen →
  Post.tags <$> result
  = (λ post, Some (JsString.join (ExternalBlogPost.tags post) ",")) <$> chosen.
Proof.
  induction 1 as [|mapped post result chosen [now ->] _ IH]; [done|].
  rewrite !fmap_cons, IH. done.
Qed.

Lemma tag_qualifies_b_spec c post :
  tag_qualifies_b c post = true ↔ tag_qualifies c post.
Proof.
  unfold tag_qualifies_b, tag_qualifies. rewrite existsb_exists. split.
  - intros (tag & Htag & (matchTag & HmatchTag & Hinc)%existsb_exists).
    exists tag, matchTag. rewrite !list_elem_of_In, <-includes_spec. done.
  - intros (tag & matchTag & Htag & HmatchTag & Hsub).
    exists tag. rewrite <-list_elem_of_In. split; [done|].
    apply existsb_exists. exists matchTag.
    rewrite <-list_elem_of_In, includes_spec. done.
Qed.

Lemma List_filter_kept_exactly {A} (g : A → bool) (P : A → Prop) (l : list A) :
  (∀ x, g x = true ↔ P x) → kept_exactly P l (List.filter g l).
Proof.
  intros Hg. induction l as [|x l IH]; simpl; [done|].
  destruct (g x) eqn:Hx.
  - left. split; [by apply Hg|eauto].
  - right. split; [|done]. intros HP. apply Hg in HP. congruence.
Qed.

Lemma other_category_lookup c :
  c ∉ Object_prototype_properties →
  or_array (Record_get categoryToTags_other c) [c] = Some (matching_tags_other c).
Proof.
  intros Hc. unfold Record_get, matching_tags_other.
  destruct (categoryToTags_other !! c); simpl; [done|].
  by rewrite bool_decide_eq_false_2.
Qed.

(** The branch for the other categories, on a successful request. *)
Lemma fetch_other_category_closed_form category data h :
  let c := JsString.toLowerCase category in
  c ∉ Object_prototype_properties →
  fetch "https://dummyjson.com/posts?limit=100" = Response true (Json data) →
  let chosen := other_selection c (posts data) in
  fetch_other_category clock fetch category h
  = (Ok (mapped_with_category clock c (h + length (posts data))%nat chosen),
     (h + length (posts data) + length chosen)%nat).
Proof.
  intros c Hc Hfetch chosen. unfold fetch_other_category.
  erewrite bind_Ok; [|unfold await_fetch; rewrite Hfetch; reflexivity]. simpl.
  erewrite bind_Ok; [|unfold response_json; simpl; apply (Array_map_alloc id)].
  rewrite list_fmap_id. fold c. rewrite other_category_lookup by done.
  set (D := zip (seq h (length (posts data))) (posts data)).
  assert (D.*2 = posts data) as HD2.
  { apply snd_zip. rewrite length_seq. lia. }
  erewrite bind_Ok; cycle 1.
  { unfold lift. erewrite (Array_filter_pure _ (λ post, tag_qualifies_b c post.2));
      [reflexivity|].
    intros post. apply tagMatch_arrays. }
  set (F := List.filter (λ post : loc * ExternalBlogPost.t, tag_qualifies_b c post.2) D).
  assert (F.*2 = List.filter (tag_qualifies_b c) (posts data)) as HF.
  { unfold F. etrans; [apply (List_filter_snd (tag_qualifies_b c))|]. by rewrite HD2. }
  unfold chosen, other_selection. rewrite <-HF.
  destruct (decide (length F = 0%nat)) as [Hnone|Hsome].
  - apply length_zero_iff_nil in Hnone. rewrite Hnone. simpl.
    rewrite Array_map_map_with_category. unfold Array_slice0. simpl.
    rewrite fmap_take, HD2. rewrite <-(length_fmap snd), fmap_take, HD2.
    change (Z.to_nat 6) with 6%nat. reflexivity.
  - rewrite decide_False.
    + rewrite Array_map_map_with_category. rewrite <-(length_fmap snd F).
      apply same_mapped; lia.
    + intros Hnil. apply Hsome. apply (f_equal length) in Hnil.
      by rewrite length_fmap in Hnil.
Qed.

(** C8, as the code has it: for a category other than all and the five
    with keyword sets (and not the name of a property every object
    inherits), a source post is selected when one of its tags, case
    folded, contains the category (for writing: one of its eight tags) as
    a substring; when none is selected the first six source posts, or all
    of them if there are fewer, are taken instead; every returned post,
    selected or taken instead, has the category in its category field
    and, as its tags, the tags of its source post joined by commas (the
    category is not added to them); the result is empty only if the
    source is. *)
Theorem other_category_selects_by_tag_substring
  (category : string) (data : ExternalApiResponse) (h : loc) :
  let c := JsString.toLowerCase category in
  category ≠ "all" →
  c ∉ known_categories →
  c ∉ Object_prototype_properties →
  fetch "https://dummyjson.com/posts?limit=100" = Response true (Json data) →
  ∃ selected result,
    (fetchExternalPostsByCategory clock fetch category h).1 = Ok result
    ∧ kept_exactly (tag_qualifies c) (posts data) selected
    ∧ mapped_from c result
        (if decide (selected = []) then take 6 (posts data) else selected)
    ∧ Forall (λ post, Post.category post = Some c) result
    ∧ Post.tags <$> result
      = (λ post, Some (JsString.join (ExternalBlogPost.tags post) ","))
        <$> (if decide (selected = []) then take 6 (posts data) else selected)
    ∧ (selected = [] → length result = (6 `min` length (posts data))%nat)
    ∧ (posts data ≠ [] → result ≠ []).
Proof.
  intros c Hall Hknown Hproto Hfetch.
  exists (List.filter (tag_qualifies_b c) (posts data)).
  exists (mapped_with_category clock c (h + length (posts data))%nat
            (other_selection c (posts data))).
  split.
  { unfold fetchExternalPostsByCategory. erewrite try_catch_Ok; [done|].
    rewrite (proj2 (String.eqb_neq _ _)) by done.
    rewrite bool_decide_eq_false_2 by done.
    by apply fetch_other_category_closed_form. }
  pose proof (mapped_with_category_mapped_from c (h + length (posts data))%nat
                (other_selection c (posts data))) as Hmapped.
  split_and!.
  - apply List_filter_kept_exactly, tag_qualifies_b_spec.
  - exact Hmapped.
  - by eapply mapped_from_category.
  - by eapply mapped_from_tags.
  - intros Hnone. apply Forall2_length in Hmapped. rewrite Hmapped.
    unfold other_selection. rewrite decide_True by done. apply length_take.
  - intros Hposts Hresult. apply Forall2_length in Hmapped.
    rewrite Hresult in Hmapped. simpl in Hmapped.
    symmetry in Hmapped. apply length_zero_iff_nil in Hmapped.
    unfold other_selection in Hmapped.
    destruct (decide _) as [Hnone|Hsome]; [|done].
    destruct (posts data); [done|discriminate].
Qed.

End Category_facts.

Lemma other_category_selects_by_tag_substring_witness :
  "art" ≠ "all"
  ∧ (JsString.toLowerCase "art" ∉ ApiService.known_categories)
  ∧ (JsString.toLowerCase "art" ∉ ApiService.Object_prototype_properties)
  ∧ answering_fetch art_source "https://dummyjson.com/posts?limit=100"
    = ApiService.Response true
        (ApiService.Json
           {| ApiService.posts := art_source; ApiService.total := 7;
              ApiService.skip := 0; ApiService.limit := 100 |})
  ∧ ∃ selected result,
      (ApiService.fetchExternalPostsByCategory sample_clock (answering_fetch art_source)
         "art" 0%nat).1 = Ok result
      ∧ kept_exactly (tag_qualifies "art") art_source selected
      ∧ mapped_from "art" result
          (if decide (selected = []) then take 6 art_source else selected)
      ∧ Forall (λ post, Post.category post = Some "art") result
      ∧ Post.tags <$> result
        = (λ post, Some (JsString.join (ExternalBlogPost.tags post) ","))
          <$> (if decide (selected = []) then take 6 art_source else selected)
      ∧ (selected = [] → length result = (6 `min` length art_source)%nat)
      ∧ (art_source ≠ [] → result ≠ []).
Proof.
  assert ("art" ≠ "all") as H1 by discriminate.
  assert (JsString.toLowerCase "art" ∉ ApiService.known_categories) as H2.
  { apply (bool_decide_unpack _). vm_compute. exact I. }
  assert (JsString.toLowerCase "art" ∉ ApiService.Object_prototype_properties) as H3.
  { apply (bool_decide_unpack _). vm_compute. exact I. }
  split_and!; [exact H1|exact H2|exact H3|reflexivity|].
  exact (other_category_selects_by_tag_substring sample_clock
           (answering_fetch art_source) "art" _ 0%nat H1 H2 H3 eq_refl).
Defined.

(** C8 as stated fails. No post of the source has the tag art, so by
    tag equality none qualifies and six posts would be returned; the code
    returns the one post whose tag party contains art. And on an empty
    source the result is empty. *)
Lemma other_category_not_by_tag_equality :
  Forall (λ post, "art" ∉ ExternalBlogPost.tags post) art_source
  ∧ (∃ result,
       (ApiService.fetchExternalPostsByCategory sample_clock (answering_fetch art_source)
          "art" 0%nat).1 = Ok result
       ∧ Post.id <$> result = [7])
  ∧ (ApiService.fetchExternalPostsByCategory sample_clock (answering_fetch [])
       "art" 0%nat).1 = Ok [].
Proof.
  split_and!.
  - apply (bool_decide_unpack _). vm_compute. exact I.
  - eexists. split; vm_compute; reflexivity.
  - vm_compute. reflexivity.
Qed.

(** The posts taken instead keep the tags of the source: no post of the
    source has a tag containing zebra, the first six are returned with
    the category zebra and the tag history. *)
Example substitute_posts_keep_source_tags :
  ∃ result,
    (ApiService.fetchExternalPostsByCategory sample_clock (answering_fetch art_source)
       "Zebra" 0%nat).1 = Ok result
    ∧ Post.id <$> result = [1; 2; 3; 4; 5; 6]
    ∧ Forall (λ post, Post.category post = Some "zebra"
                      ∧ Post.tags post = Some "history") result.
Proof.
  eexists. split; [vm_compute; reflexivity|]. split; [reflexivity|].
  repeat constructor.
Qed.

(** A category named like a property every object inherits: the lookup
    finds a function, its method some is missing, the exception is
    caught. *)
Example inherited_property_category :
  (ApiService.fetchExternalPostsByCategory sample_clock (answering_fetch art_source)
     "constructor" 0%nat).1 = Ok [].
Proof. vm_compute. reflexivity. Qed.

(** C7, at an input where the code departs from it. Of twelve source
    posts only post 1 qualifies for food; the padding takes the first
    nine source posts, post 1 among them, so post 1 is returned twice. *)
Theorem padding_repeats_included_post :
  ∃ result,
    (ApiService.fetchExternalPostsByCategory sample_clock (answering_fetch food_source)
       "food" 0%nat).1 = Ok result
    ∧ List.filter (qualifies_known
                     ["food"; "cooking"; "recipe"; "cuisine"; "meal"; "restaurant";
                      "dinner"; "lunch"; "breakfast"; "eat"]
                     ["delicious"; "tasty"; "recipe"; "cook"; "restaurant"; "chef";
                      "ingredients"; "flavor"]) food_source
      = [ExternalBlogPost.mk 1 "Post" "text" 1 ["recipe"] 0]
    ∧ Post.id <$> result = [1; 1; 2; 3; 4; 5; 6; 7; 8; 9]
    ∧ Forall (λ post, Post.category post = Some "food") result.
Proof.
  eexists. split_and!.
  - vm_compute. reflexivity.
  - vm_compute. reflexivity.
  - vm_compute. reflexivity.
  - repeat constructor.
Qed.

(** * Further properties of the code *)

(** ** The entity store: creation, lookup, removal *)

Section Storage_more.
Import Storage.

Lemma Map_get_set_ne {V} (m : list (Z * V)) k k' v :
  k' ≠ k → Map_get k' (Map_set k v m) = Map_get k' m.
Proof.
  intros Hne. induction m as [|[j w] m IH]; simpl.
  - by rewrite decide_False.
  - destruct (decide (j = k)) as [->|Hj]; simpl.
    + by rewrite !decide_False by done.
    + destruct (decide (j = k')); [done|]. apply IH.
Qed.

Lemma Map_get_set_eq {V} (m : list (Z * V)) k v :
  Map_get k (Map_set k v m) = Some v.
Proof.
  induction m as [|[j w] m IH]; simpl.
  - by rewrite decide_True.
  - destruct (decide (j = k)) as [->|Hj]; simpl.
    + by rewrite decide_True.
    + by rewrite decide_False.
Qed.

Lemma Map_get_app_absent {V} (m1 m2 : list (Z * V)) k :
  k ∉ m1.*1 → Map_get k (m1 ++ m2) = Map_get k m2.
Proof.
  induction m1 as [|[j w] m1 IH]; simpl; [done|].
  rewrite not_elem_of_cons. intros [Hne Hk]. rewrite decide_False by done. auto.
Qed.

Lemma Map_get_app_ne {V} (m1 m2 : list (Z * V)) k k' v :
  k' ≠ k → Map_get k' (m1 ++ (k, v) :: m2) = Map_get k' (m1 ++ m2).
Proof.
  intros Hne. induction m1 as [|[j w] m1 IH]; simpl.
  - by rewrite decide_False.
  - by rewrite IH.
Qed.

Lemma run_posts_ok ops st : posts_ok st → posts_ok (run ops st).
Proof.
  revert st. induction ops as [|op ops IH]; intros st Hok; [done|].
  apply IH. by apply step_posts_ok.
Qed.

(** createPost stores the post under the next id and returns it: the
    post is found under that id, carries that id and the time of the
    call whatever the input says about id and createdAt, has the input's
    other fields, and no other id's post changes. *)
Theorem createPost_then_getPost (insertPost : obj) (now : Z) (st : MemStorage) :
  let post := (createPost insertPost now st).1 in
  let st' := (createPost insertPost now st).2 in
  getPost (currentPostId st) st' = Some post
  ∧ prop post "id" = VNum (currentPostId st)
  ∧ prop post "createdAt" = VDate now
  ∧ (∀ k, k ≠ "id" → k ≠ "createdAt" → post !! k = insertPost !! k)
  ∧ (∀ id, id ≠ currentPostId st → getPost id st' = getPost id st)
  ∧ currentPostId st' = currentPostId st + 1.
Proof.
  simpl. unfold getPost, prop. simpl. split_and!.
  - apply Map_get_set_eq.
  - by rewrite lookup_insert_ne, lookup_insert_eq.
  - by rewrite lookup_insert_eq.
  - intros k H1 H2. by rewrite !lookup_insert_ne.
  - intros id Hne. by apply Map_get_set_ne.
  - done.
Qed.

(** On a store reached by post operations, deletePost answers whether
    the post existed; afterwards the post is absent, deleting it again
    answers false, and every other post is still there. *)
Theorem deletePost_then_getPost (ops : list post_op) (id : Z) :
  let st := run ops constructor in
  let st' := (deletePost id st).2 in
  (deletePost id st).1 = bool_decide (is_Some (getPost id st))
  ∧ getPost id st' = None
  ∧ (deletePost id st').1 = false
  ∧ (∀ id', id' ≠ id → getPost id' st' = getPost id' st).
Proof.
  intros st st'.
  assert (posts_ok st) as [Hnd Hlt] by apply run_posts_ok, constructor_posts_ok.
  unfold st', deletePost, getPost.
  destruct (Map_get id (posts st)) as [post|] eqn:Hget.
  - destruct (Map_get_Some _ _ _ Hnd Hget) as (m1 & m2 & Hm & H1 & H2).
    rewrite Hm. rewrite Map_delete_at by done. simpl.
    assert (id ∉ (m1 ++ m2).*1) as Habsent.
    { rewrite fmap_app, elem_of_app. intros [?|?]; done. }
    rewrite Map_delete_absent by done. simpl.
    split_and!; [done| |done|].
    + by apply Map_get_None.
    + intros id' Hne. by rewrite (Map_get_app_ne m1 m2 id id' post).
  - apply Map_get_None in Hget. rewrite Map_delete_absent by done. simpl.
    rewrite Map_delete_absent by done. simpl.
    split_and!; [done| |done|done]. by apply Map_get_None.
Qed.

Lemma currentPostId_run ops st :
  currentPostId (run ops st) = currentPostId st + creations ops.
Proof.
  revert st. induction ops as [|op ops IH]; intros st.
  - unfold creations. simpl. lia.
  - change (run (op :: ops) st) with (run ops (step st op)). rewrite IH.
    unfold creations. destruct op as [insertPost now|id postUpdate|id]; simpl.
    + lia.
    + unfold updatePost. destruct (Map_get id (posts st)); simpl; lia.
    + unfold deletePost. destruct (Map_delete id (posts st)); simpl; lia.
Qed.

Lemma Map_set_entries {V} (m : list (Z * V)) k v (e : Z * V) :
  e ∈ Map_set k v m → e = (k, v) ∨ e ∈ m.
Proof.
  induction m as [|[j w] m IH]; simpl.
  - rewrite list_elem_of_singleton. by left.
  - case_decide; rewrite !elem_of_cons.
    + intros [->|He]; [by left|by right; right].
    + intros [->|He]; [by right; left|].
      destruct (IH He) as [->|Hm]; [by left|by right; right].
Qed.

Lemma Map_delete_entries {V} (m : list (Z * V)) k (e : Z * V) :
  e ∈ (Map_delete k m).2 → e ∈ m.
Proof.
  induction m as [|[j w] m IH]; simpl; [done|].
  case_decide; simpl.
  - intros He. by right.
  - destruct (Map_delete k m) as [b m'']. simpl in *.
    rewrite !elem_of_cons. intros [->|He]; [by left|right; by apply IH].
Qed.

Lemma Map_get_entry {V} (m : list (Z * V)) k v :
  Map_get k m = Some v → (k, v) ∈ m.
Proof.
  induction m as [|[j w] m IH]; simpl; [done|].
  case_decide; subst.
  - intros [= ->]. by left.
  - intros Hget. right. by apply IH.
Qed.

Lemma step_ids_are_keys st op :
  match op with OpUpdate _ postUpdate => postUpdate !! "id" = None | _ => True end →
  ids_are_keys st → ids_are_keys (step st op).
Proof.
  unfold ids_are_keys. rewrite !Forall_forall.
  intros Hop Hst. destruct op as [insertPost now|id postUpdate|id]; simpl.
  - intros e He. apply Map_set_entries in He as [->|He]; [|by apply Hst].
    unfold prop. simpl. by rewrite lookup_insert_ne, lookup_insert_eq.
  - unfold updatePost. destruct (Map_get id (posts st)) as [post|] eqn:Hget; simpl;
      [|done].
    intros e He. apply Map_set_entries in He as [->|He]; [|by apply Hst].
    simpl. unfold prop. rewrite spread_lookup, Hop.
    apply Map_get_entry in Hget. apply (Hst _ Hget).
  - unfold deletePost. destruct (Map_delete id (posts st)) as [existed posts'] eqn:Hdel.
    simpl. intros e He. apply Hst. apply (Map_delete_entries _ id).
    by rewrite Hdel.
Qed.

Lemma run_ids_are_keys ops st :
  updates_carry_no_id ops → ids_are_keys st → ids_are_keys (run ops st).
Proof.
  intros Hops. revert st. induction Hops as [|op ops Hop _ IH]; intros st Hst; [done|].
  apply IH. by apply step_ids_are_keys.
Qed.

(** Post ids are never reused: on a new store the id a creation
    receives is one more than the number of creations before it,
    whatever was updated or deleted in between, so it is larger than
    every id given earlier; no post is stored under it; and when no
    update carried an id property, every stored post has a smaller id in
    its id property, so no stored post has the new id. *)
Theorem post_ids_never_reused (ops : list post_op) (insertPost : obj) (now : Z) :
  let st := run ops constructor in
  let id := 1 + creations ops in
  prop (createPost insertPost now st).1 "id" = VNum id
  ∧ getPost id st = None
  ∧ (∀ ops1 insertPost1 now1 ops2,
       ops = ops1 ++ OpCreate insertPost1 now1 :: ops2 →
       1 + creations ops1 < id)
  ∧ (updates_carry_no_id ops →
     Forall (λ post, ∃ k, prop post "id" = VNum k ∧ k < id) (getAllPosts st)).
Proof.
  intros st id.
  assert (currentPostId st = id) as Hid.
  { unfold st, id. by rewrite currentPostId_run. }
  assert (posts_ok st) as [_ Hlt] by apply run_posts_ok, constructor_posts_ok.
  rewrite Hid in Hlt.
  split_and!.
  - unfold prop. simpl. rewrite lookup_insert_ne, lookup_insert_eq by done.
    simpl. by rewrite Hid.
  - apply Map_get_None. intros Hin. rewrite Forall_forall in Hlt.
    apply Hlt in Hin. lia.
  - intros ops1 insertPost1 now1 ops2 ->. unfold id, creations.
    rewrite List.filter_app, length_app. simpl. lia.
  - intros Hops.
    assert (ids_are_keys st) as Hkeys.
    { apply run_ids_are_keys; [done|]. unfold ids_are_keys. simpl. constructor. }
    unfold ids_are_keys in Hkeys. unfold getAllPosts, Map_values.
    rewrite Forall_fmap. rewrite Forall_forall in Hkeys. rewrite Forall_forall in Hlt.
    rewrite Forall_forall.
    intros [k post] He. simpl. exists k. split; [by apply (Hkeys _ He)|].
    apply Hlt. apply (list_elem_of_fmap_2 fst) in He. done.
Qed.

Lemma post_ids_never_reused_witness :
  updates_carry_no_id create_update_delete_create
  ∧ prop (createPost {["title" := VStr "D"]} 30
            (run create_update_delete_create constructor)).1 "id" = VNum 3
  ∧ Forall (λ post, ∃ k, prop post "id" = VNum k ∧ k < 3)
      (getAllPosts (run create_update_delete_create constructor)).
Proof.
  assert (updates_carry_no_id create_update_delete_create) as H.
  { repeat constructor. }
  split; [exact H|].
  pose proof (post_ids_never_reused create_update_delete_create
                {["title" := VStr "D"]} 30) as (H1 & _ & _ & H4).
  split; [exact H1|exact (H4 H)].
Defined.

(** The hypothesis on the updates is needed: updatePost writes an id
    property it is given, so after a creation, an update of post 1 with
    id 2 and a second creation, two stored posts have 2 as their id
    property, under the keys 1 and 2. *)
Example id_property_repeats_after_update :
  let st := run [OpCreate {["title" := VStr "A"]} 10;
                 OpUpdate 1 {["id" := VNum 2]};
                 OpCreate {["title" := VStr "B"]} 20] constructor in
  (λ post, prop post "id") <$> getAllPosts st = [VNum 2; VNum 2]
  ∧ (λ post, prop post "id") <$> getPost 1 st = Some (VNum 2)
  ∧ (λ post, prop post "id") <$> getPost 2 st = Some (VNum 2).
Proof. cbv zeta. split_and!; reflexivity. Qed.

Lemma MemStorage_eta (st : MemStorage) :
  {| users := users st; posts := posts st; comments := comments st;
     currentUserId := currentUserId st; currentPostId := currentPostId st;
     currentCommentId := currentCommentId st |} = st.
Proof. by destruct st. Qed.

(** updatePost and deletePost on an id that is not stored change
    nothing: updatePost answers undefined, deletePost answers false, and
    the store is the same. *)
Theorem unknown_post_id_changes_nothing (id : Z) (postUpdate : obj) (st : MemStorage) :
  getPost id st = None →
  updatePost id postUpdate st = (None, st) ∧ deletePost id st = (false, st).
Proof.
  unfold getPost, updatePost, deletePost. intros Hget. rewrite Hget. split; [done|].
  apply Map_get_None in Hget. rewrite Map_delete_absent by done.
  by rewrite MemStorage_eta.
Qed.

Lemma unknown_post_id_changes_nothing_witness :
  getPost 5 sample_store = None
  ∧ updatePost 5 {["title" := VStr "U"]} sample_store = (None, sample_store)
  ∧ deletePost 5 sample_store = (false, sample_store).
Proof.
  split; [reflexivity|].
  apply (unknown_post_id_changes_nothing 5 {["title" := VStr "U"]} sample_store).
  reflexivity.
Defined.

Lemma Map_set_set {V} (m : list (Z * V)) k v1 v2 :
  Map_set k v2 (Map_set k v1 m) = Map_set k v2 m.
Proof.
  induction m as [|[j w] m IH]; simpl.
  - by rewrite decide_True.
  - destruct (decide (j = k)) as [->|Hj]; simpl.
    + by rewrite decide_True.
    + rewrite decide_False by done. by rewrite IH.
Qed.

Lemma Map_set_keys {V} (m : list (Z * V)) k v v' :
  Map_get k m = Some v → (Map_set k v' m).*1 = m.*1.
Proof.
  induction m as [|[j w] m IH]; simpl; [done|].
  destruct (decide (j = k)) as [->|Hj]; simpl; [done|].
  intros Hget. f_equal. by apply IH.
Qed.

(** Two updates of a stored post compose: updating with one partial and
    then with another leaves the store and returns the post that a
    single update with the merged partial { ...first, ...second } does;
    in particular repeating an update changes nothing more. *)
Theorem updatePost_twice (id : Z) (first second post : obj) (st : MemStorage) :
  getPost id st = Some post →
  updatePost id second (updatePost id first st).2
  = updatePost id (spread first second) st
  ∧ updatePost id first (updatePost id first st).2 = updatePost id first st.
Proof.
  unfold getPost. intros Hget.
  assert (∀ u v, updatePost id v (updatePost id u st).2
                 = updatePost id (spread u v) st) as Hcompose.
  { intros u v. unfold updatePost. rewrite Hget. simpl.
    rewrite Map_get_set_eq. simpl. rewrite Map_set_set.
    unfold spread. by rewrite (assoc_L (∪)). }
  split; [apply Hcompose|].
  rewrite Hcompose. unfold spread. by rewrite (idemp_L (∪) first).
Qed.

Lemma updatePost_twice_witness :
  getPost 1 sample_store
  = Some (list_to_map [("title", VStr "T"); ("content", VStr "C");
                       ("id", VNum 1); ("createdAt", VDate 1000)])
  ∧ updatePost 1 {["content" := VStr "D"]}
      (updatePost 1 {["title" := VStr "U"]} sample_store).2
    = updatePost 1 (spread {["title" := VStr "U"]} {["content" := VStr "D"]})
        sample_store
  ∧ updatePost 1 {["title" := VStr "U"]}
      (updatePost 1 {["title" := VStr "U"]} sample_store).2
    = updatePost 1 {["title" := VStr "U"]} sample_store.
Proof.
  split; [vm_compute; reflexivity|].
  apply (updatePost_twice 1 {["title" := VStr "U"]} {["content" := VStr "D"]}
           (list_to_map [("title", VStr "T"); ("content", VStr "C");
                         ("id", VNum 1); ("createdAt", VDate 1000)]) sample_store).
  vm_compute. reflexivity.
Defined.

(** updatePost never reorders or renumbers: the ids under which posts
    are stored, their order, the number of posts and the id counter are
    the same before and after, whether or not the id was found. *)
Theorem updatePost_keeps_order (id : Z) (postUpdate : obj) (st : MemStorage) :
  let st' := (updatePost id postUpdate st).2 in
  (posts st').*1 = (posts st).*1
  ∧ length (getAllPosts st') = length (getAllPosts st)
  ∧ currentPostId st' = currentPostId st
  ∧ users st' = users st
  ∧ comments st' = comments st.
Proof.
  unfold updatePost, getAllPosts, Map_values.
  destruct (Map_get id (posts st)) as [post|] eqn:Hget; simpl; [|done].
  assert ((Map_set id (spread post postUpdate) (posts st)).*1 = (posts st).*1) as Hkeys.
  { by eapply Map_set_keys. }
  split_and!; try done.
  apply (f_equal length) in Hkeys. by rewrite !length_fmap in *.
Qed.

Lemma constructor_users_ok : users_ok constructor.
Proof.
  unfold users_ok. simpl. split_and!.
  - apply NoDup_singleton.
  - apply Forall_singleton. lia.
  - apply Forall_singleton. done.
  - apply Forall_singleton. vm_compute. reflexivity.
Qed.

Lemma createUser_users_ok insertUser st :
  users_ok st → users_ok (createUser insertUser st).2.
Proof.
  intros (Hnd & Hlt & Hadmin & Hid). unfold users_ok. simpl.
  assert (currentUserId st ∉ (users st).*1) as Hfresh.
  { intros Hin. rewrite Forall_forall in Hlt. apply Hlt in Hin. lia. }
  rewrite Map_set_fresh by done. rewrite fmap_app. simpl. split_and!.
  - apply NoDup_app. split_and!; [done| |apply NoDup_singleton].
    intros k Hk ->%list_elem_of_singleton. done.
  - apply Forall_app. split.
    + eapply Forall_impl; [done|]. simpl. lia.
    + apply Forall_singleton. lia.
  - apply Forall_app. split; [done|]. apply Forall_singleton. intros _.
    unfold prop. simpl. by rewrite lookup_insert_eq.
  - apply Forall_app. split; [done|]. apply Forall_singleton.
    unfold prop. simpl. by rewrite lookup_insert_ne, lookup_insert_eq.
Qed.

Lemma register_all_users_ok inputs st :
  users_ok st → users_ok (register_all inputs st).
Proof.
  revert st. induction inputs as [|insertUser inputs IH]; intros st Hok; [done|].
  apply IH. by apply createUser_users_ok.
Qed.

Lemma currentUserId_register_all inputs st :
  currentUserId (register_all inputs st) = currentUserId st + Z.of_nat (length inputs).
Proof.
  revert st. induction inputs as [|insertUser inputs IH]; intros st; simpl; [lia|].
  unfold register_all in IH. rewrite IH. simpl. lia.
Qed.

Lemma admin_among_registered (inputs : list obj) (user : obj) :
  user ∈ getAllUsers (register_all inputs constructor) →
  truthy (prop user "isAdmin") = true →
  prop user "id" = VNum 1.
Proof.
  intros Hin Htruthy.
  destruct (register_all_users_ok inputs _ constructor_users_ok)
    as (_ & _ & Hadmin & Hid).
  apply list_elem_of_fmap in Hin as ([k u] & -> & Hin).
  rewrite Forall_forall in Hadmin, Hid.
  specialize (Hadmin _ Hin). specialize (Hid _ Hin). simpl in *.
  destruct (decide (k = 1)) as [->|Hne]; [done|].
  rewrite (Hadmin Hne) in Htruthy. done.
Qed.

(** Registration never makes an admin: after any registrations on a new
    store, whatever isAdmin the inputs carry, the only user whose isAdmin
    counts as true is the seeded account with id 1. *)
Theorem only_the_seeded_user_is_admin (inputs : list obj) (user : obj) :
  user ∈ getAllUsers (register_all inputs constructor) →
  truthy (prop user "isAdmin") = true →
  prop user "id" = VNum 1.
Proof. apply admin_among_registered. Qed.

Lemma only_the_seeded_user_is_admin_witness :
  let user : obj :=
    list_to_map [("id", VNum 1); ("username", VStr "admin"); ("password", VStr "admin");
                 ("fullName", VStr "Admin User"); ("isAdmin", VBool true)] in
  user ∈ getAllUsers
           (register_all [list_to_map [("username", VStr "eve"); ("isAdmin", VBool true)]]
              constructor)
  ∧ truthy (prop user "isAdmin") = true
  ∧ prop user "id" = VNum 1.
Proof.
  intros user.
  assert (user ∈ getAllUsers
            (register_all [list_to_map [("username", VStr "eve"); ("isAdmin", VBool true)]]
               constructor)) as Hin.
  { apply (bool_decide_unpack _). vm_compute. exact I. }
  assert (truthy (prop user "isAdmin") = true) as Htruthy by reflexivity.
  split_and!; [exact Hin|exact Htruthy|].
  exact (only_the_seeded_user_is_admin _ user Hin Htruthy).
Defined.

Lemma find_app_Some {A} (f : A → bool) (l l' : list A) x :
  List.find f l = Some x → List.find f (l ++ l') = Some x.
Proof.
  induction l as [|y l IH]; simpl; [done|]. by destruct (f y).
Qed.

(** The first user registered under a name keeps it: once
    getUserByUsername finds a user, it finds the same user after any
    later registration, also one that uses the same username. *)
Theorem getUserByUsername_finds_the_first
  (inputs : list obj) (insertUser : obj) (username : string) (user : obj) :
  let st := register_all inputs constructor in
  getUserByUsername username st = Some user →
  getUserByUsername username (createUser insertUser st).2 = Some user.
Proof.
  intros st. unfold getUserByUsername. simpl. intros Hfind.
  destruct (register_all_users_ok inputs _ constructor_users_ok) as (_ & Hlt & _).
  fold st in Hlt.
  assert (currentUserId st ∉ (users st).*1) as Hfresh.
  { intros Hin. rewrite Forall_forall in Hlt. apply Hlt in Hin. lia. }
  rewrite Map_set_fresh by done. unfold Map_values. rewrite fmap_app.
  by apply find_app_Some.
Qed.

Lemma getUserByUsername_finds_the_first_witness :
  let admin : obj :=
    list_to_map [("id", VNum 1); ("username", VStr "admin"); ("password", VStr "admin");
                 ("fullName", VStr "Admin User"); ("isAdmin", VBool true)] in
  let insertUser : obj := list_to_map [("username", VStr "admin"); ("password", VStr "x")] in
  getUserByUsername "admin" (register_all [] constructor) = Some admin
  ∧ getUserByUsername "admin" (createUser insertUser (register_all [] constructor)).2
    = Some admin.
Proof.
  intros admin insertUser.
  assert (getUserByUsername "admin" (register_all [] constructor) = Some admin) as H.
  { vm_compute. reflexivity. }
  split; [exact H|].
  exact (getUserByUsername_finds_the_first [] insertUser "admin" admin H).
Defined.

(** createUser stores the user under the next id and returns it: on a
    new store the n-th registration receives id n + 1, getUser finds the
    user under it, and the user is the last of getAllUsers. *)
Theorem createUser_then_getUser (inputs : list obj) (insertUser : obj) :
  let st := register_all inputs constructor in
  let user := (createUser insertUser st).1 in
  let st' := (createUser insertUser st).2 in
  prop user "id" = VNum (2 + Z.of_nat (length inputs))
  ∧ getUser (2 + Z.of_nat (length inputs)) st' = Some user
  ∧ getAllUsers st' = getAllUsers st ++ [user]
  ∧ (∀ id, id ≠ 2 + Z.of_nat (length inputs) → getUser id st' = getUser id st).
Proof.
  intros st user st'.
  assert (currentUserId st = 2 + Z.of_nat (length inputs)) as Hid.
  { unfold st. rewrite currentUserId_register_all. done. }
  destruct (register_all_users_ok inputs _ constructor_users_ok) as (_ & Hlt & _).
  fold st in Hlt.
  assert (currentUserId st ∉ (users st).*1) as Hfresh.
  { intros Hin. rewrite Forall_forall in Hlt. apply Hlt in Hin. lia. }
  unfold user, st', getUser, getAllUsers, prop. simpl. rewrite <-Hid. split_and!.
  - by rewrite lookup_insert_ne, lookup_insert_eq.
  - apply Map_get_set_eq.
  - rewrite Map_set_fresh by done. unfold Map_values. by rewrite fmap_app.
  - intros id Hne. by apply Map_get_set_ne.
Qed.

End Storage_more.

(** ** The request handlers *)

Section Routes_facts.
Import Storage Routes.
Variable insertPostSchema_partial_parse : obj → option obj.
Variable insertCommentSchema_parse : obj → option obj.

Lemma strict_equal_true a b : strict_equal a b = true → a = b.
Proof.
  destruct a, b; simpl; try done; intros H; by apply bool_decide_eq_true in H.
Qed.

Lemma not_forbidden post user :
  forbidden post user = false →
  prop post "authorId" = prop user "id" ∨ truthy (prop user "isAdmin") = true.
Proof.
  unfold forbidden. rewrite andb_false_iff, !negb_false_iff.
  intros [H|H]; [left; by apply strict_equal_true|by right].
Qed.

Lemma forbidden_true post user :
  forbidden post user = true
  ↔ ¬ (strict_equal (prop post "authorId") (prop user "id") = true
       ∨ truthy (prop user "isAdmin") = true).
Proof.
  unfold forbidden.
  destruct (strict_equal _ _), (truthy _); simpl; split; try done.
  - intros H. destruct H. by left.
  - intros H. destruct H. by left.
  - intros H. destruct H. by right.
  - intros _ [?|?]; done.
Qed.

(** PUT /api/posts/:id changes the store only for an authenticated
    caller who is the post's author or an admin: an unauthenticated
    request is answered 401, else a missing post 404, else a caller who
    is neither 403, else an invalid body 400, and in all these cases the
    store is the same; else the answer is 200 with the merged post, and
    the store is the one updatePost leaves, with the merged post under
    the id. Only the answer 200 comes with an update. *)
Theorem put_post_only_by_author_or_admin (req : request) (st : MemStorage) :
  let res := (put_post insertPostSchema_partial_parse req st).1 in
  let st' := (put_post insertPostSchema_partial_parse req st).2 in
  let entitled (post : obj) :=
    strict_equal (prop post "authorId") (prop (user req) "id") = true
    ∨ truthy (prop (user req) "isAdmin") = true in
  (isAuthenticated req = false →
   res = {| status := 401; sent := Message "Unauthorized" |} ∧ st' = st)
  ∧ (isAuthenticated req = true → getPost_param (param req) st = None →
     res = {| status := 404; sent := Message "Post not found" |} ∧ st' = st)
  ∧ (∀ post,
       isAuthenticated req = true → getPost_param (param req) st = Some post →
       ¬ entitled post →
       res = {| status := 403; sent := Message "Forbidden" |} ∧ st' = st)
  ∧ (∀ post,
       isAuthenticated req = true → getPost_param (param req) st = Some post →
       entitled post → insertPostSchema_partial_parse (body req) = None →
       res = {| status := 400; sent := Invalid "Invalid post data" |} ∧ st' = st)
  ∧ (∀ postId post validatedData,
       isAuthenticated req = true → param req = Some postId →
       getPost postId st = Some post → entitled post →
       insertPostSchema_partial_parse (body req) = Some validatedData →
       res = {| status := 200; sent := One (spread post validatedData) |}
       ∧ st' = (updatePost postId validatedData st).2
       ∧ getPost postId st' = Some (spread post validatedData))
  ∧ status res ∈ [200; 400; 401; 403; 404]
  ∧ (status res ≠ 200 → st' = st)
  ∧ (status res = 200 →
     isAuthenticated req = true
     ∧ ∃ postId post validatedData,
         param req = Some postId
         ∧ getPost postId st = Some post
         ∧ (prop post "authorId" = prop (user req) "id"
            ∨ truthy (prop (user req) "isAdmin") = true)
         ∧ insertPostSchema_partial_parse (body req) = Some validatedData
         ∧ st' = (updatePost postId validatedData st).2).
Proof.
  clear insertCommentSchema_parse. cbv zeta. unfold put_post.
  destruct (isAuthenticated req); simpl.
  2: { split_and!; intros; simplify_eq/=; try done; try (apply list_elem_of_In; simpl; tauto). }
  destruct (param req) as [postId|]; simpl.
  2: { split_and!; intros; simplify_eq/=; try done; try (apply list_elem_of_In; simpl; tauto). }
  destruct (getPost postId st) as [post|] eqn:Hget; simpl.
  2: { split_and!; intros; simplify_eq/=; try done; try (apply list_elem_of_In; simpl; tauto). }
  destruct (forbidden post (user req)) eqn:Hforbidden; simpl.
  { apply forbidden_true in Hforbidden.
    split_and!; intros; simplify_eq/=; try done; try (apply list_elem_of_In; simpl; tauto). }
  assert (strict_equal (prop post "authorId") (prop (user req) "id") = true
          ∨ truthy (prop (user req) "isAdmin") = true) as Hentitled.
  { unfold forbidden in Hforbidden.
    destruct (strict_equal _ _), (truthy _); simpl in *; try done; (by left) || (by right). }
  destruct (insertPostSchema_partial_parse (body req)) as [validatedData|] eqn:Hparse;
    simpl.
  2: { split_and!; intros; simplify_eq/=; try done; try (apply list_elem_of_In; simpl; tauto). }
  assert (getPost postId (updatePost postId validatedData st).2
          = Some (spread post validatedData)) as Hstored.
  { unfold getPost, updatePost in *. rewrite Hget. simpl. apply Map_get_set_eq. }
  assert ((updatePost postId validatedData st).1 = Some (spread post validatedData))
    as Hupdated.
  { unfold getPost, updatePost in *. by rewrite Hget. }
  rewrite Hupdated. split_and!; intros; simplify_eq/=; try done;
    try (apply list_elem_of_In; simpl; tauto).
  split; [done|]. exists postId, post, validatedData. split_and!; try done.
  by apply not_forbidden.
Qed.

Lemma put_post_cases (req : request) (st : MemStorage) :
  (put_post insertPostSchema_partial_parse req st).2 = st
  ∨ ∃ postId post validatedData,
      getPost postId st = Some post
      ∧ insertPostSchema_partial_parse (body req) = Some validatedData
      ∧ (put_post insertPostSchema_partial_parse req st).2
        = (updatePost postId validatedData st).2.
Proof.
  unfold put_post. destruct (isAuthenticated req); simpl; [|by left].
  destruct (param req) as [postId|]; simpl; [|by left].
  destruct (getPost postId st) as [post|] eqn:Hget; simpl; [|by left].
  destruct (forbidden post (user req)); simpl; [by left|].
  destruct (insertPostSchema_partial_parse (body req)) as [validatedData|] eqn:Hparse;
    simpl; [|by left].
  right. by exists postId, post, validatedData.
Qed.

(** When the validator drops id and createdAt, as a schema that picks
    the seven insert fields does, no PUT request changes a stored post's
    id or createdAt, whatever its body carries. *)
Theorem put_post_keeps_id_and_createdAt
  (req : request) (st : MemStorage) (postId : Z) (post : obj) :
  (∀ body data, insertPostSchema_partial_parse body = Some data →
                data !! "id" = None ∧ data !! "createdAt" = None) →
  getPost postId st = Some post →
  ∃ post',
    getPost postId (put_post insertPostSchema_partial_parse req st).2 = Some post'
    ∧ prop post' "id" = prop post "id"
    ∧ prop post' "createdAt" = prop post "createdAt".
Proof.
  intros Hstrip Hget.
  destruct (put_post_cases req st) as [Hsame|(id & p & data & Hp & Hparse & Hst)].
  - rewrite Hsame. by exists post.
  - rewrite Hst. unfold getPost, updatePost in *. rewrite Hp. simpl.
    destruct (decide (id = postId)) as [->|Hne].
    + rewrite Map_get_set_eq. eexists. split; [done|].
      destruct (Hstrip _ _ Hparse) as [Hid Hcreated].
      assert (p = post) as -> by congruence.
      unfold prop. by rewrite !spread_lookup, Hid, Hcreated.
    + rewrite Map_get_set_ne by done. by exists post.
Qed.

Lemma deletePost_removes (id : Z) (post : obj) (st : MemStorage) :
  posts_ok st → getPost id st = Some post →
  getPost id (deletePost id st).2 = None
  ∧ ∀ id', id' ≠ id → getPost id' (deletePost id st).2 = getPost id' st.
Proof.
  unfold getPost, deletePost. intros [Hnd _] Hget.
  destruct (Map_get_Some _ _ _ Hnd Hget) as (m1 & m2 & Hm & H1 & H2).
  rewrite Hm. rewrite Map_delete_at by done. simpl. split.
  - apply Map_get_None. rewrite fmap_app, elem_of_app. intros [?|?]; done.
  - intros id' Hne. by rewrite (Map_get_app_ne m1 m2 id id' post).
Qed.

(** DELETE /api/posts/:id removes a post only for an authenticated
    caller who is its author or an admin; then the post is gone and every
    other post is still there. Any other answer leaves the store as it
    was, and in no case are the comments touched: those of a deleted post
    stay stored. *)
Theorem delete_post_only_by_author_or_admin (req : request) (st : MemStorage) :
  posts_ok st →
  let res := (delete_post req st).1 in
  let st' := (delete_post req st).2 in
  (status res ≠ 204 → st' = st)
  ∧ (status res = 204 →
     isAuthenticated req = true
     ∧ ∃ postId post,
         param req = Some postId
         ∧ getPost postId st = Some post
         ∧ (prop post "authorId" = prop (user req) "id"
            ∨ truthy (prop (user req) "isAdmin") = true)
         ∧ getPost postId st' = None
         ∧ ∀ id, id ≠ postId → getPost id st' = getPost id st)
  ∧ comments st' = comments st
  ∧ ∀ postId, getCommentsByPost postId st' = getCommentsByPost postId st.
Proof.
  intros Hok. unfold delete_post.
  destruct (isAuthenticated req); simpl; [|done].
  destruct (param req) as [postId|]; simpl; [|done].
  destruct (getPost postId st) as [post|] eqn:Hget; simpl; [|done].
  destruct (forbidden post (user req)) eqn:Hforbidden; simpl; [done|].
  assert (comments (deletePost postId st).2 = comments st) as Hcomments.
  { unfold deletePost. by destruct (Map_delete postId (posts st)). }
  split_and!; [done| |done|].
  - intros _. split; [done|]. exists postId, post.
    destruct (deletePost_removes postId post st Hok Hget) as [Hgone Hothers].
    split_and!; try done. by apply not_forbidden.
  - intros pid. unfold getCommentsByPost. by rewrite Hcomments.
Qed.

(** DELETE /api/comments/:id checks no ownership: for every
    authenticated caller, whoever it is, the answer is 204, a stored
    comment with that id is removed, and nothing else changes. *)
Theorem delete_comment_by_any_user
  (req : request) (st : MemStorage) (commentId : Z) (comment : obj) :
  NoDup (comments st).*1 →
  isAuthenticated req = true →
  param req = Some commentId →
  Map_get commentId (comments st) = Some comment →
  let res := (delete_comment req st).1 in
  let st' := (delete_comment req st).2 in
  status res = 204
  ∧ Map_get commentId (comments st') = None
  ∧ length (comments st') = (length (comments st) - 1)%nat
  ∧ posts st' = posts st
  ∧ users st' = users st.
Proof.
  intros Hnd Hauth Hparam Hget. unfold delete_comment. rewrite Hauth, Hparam. simpl.
  unfold deleteComment.
  destruct (Map_get_Some _ _ _ Hnd Hget) as (m1 & m2 & Hm & H1 & H2).
  rewrite Hm. rewrite Map_delete_at by done. simpl. split_and!; try done.
  - apply Map_get_None. rewrite fmap_app, elem_of_app. intros [?|?]; done.
  - rewrite !length_app. simpl. lia.
Qed.

(** POST /api/posts/:postId/comments stores a comment only for an
    authenticated caller, on a post that exists, with a valid body: an
    unauthenticated request is answered 401, else a missing post 404,
    else a body that the validator rejects (with the caller as author
    and the post id put in) 400, and in these cases the store is the
    same; else the answer is 201 with the created comment, which is the
    validated data with the next comment id and the time, stored under
    that id. The posts are untouched in every case. *)
Theorem post_comment_only_on_existing_post (req : request) (now : Z) (st : MemStorage) :
  let res := (post_comment insertCommentSchema_parse req now st).1 in
  let st' := (post_comment insertCommentSchema_parse req now st).2 in
  let input (postId : Z) : obj :=
    <["postId" := VNum postId]> (<["authorId" := prop (user req) "id"]> (body req)) in
  let created (validatedData : obj) : obj :=
    <["createdAt" := VDate now]> (<["id" := VNum (currentCommentId st)]> validatedData) in
  (isAuthenticated req = false →
   res = {| status := 401; sent := Message "Unauthorized" |} ∧ st' = st)
  ∧ (isAuthenticated req = true → getPost_param (param req) st = None →
     res = {| status := 404; sent := Message "Post not found" |} ∧ st' = st)
  ∧ (∀ postId post,
       isAuthenticated req = true → param req = Some postId →
       getPost postId st = Some post →
       insertCommentSchema_parse (input postId) = None →
       res = {| status := 400; sent := Invalid "Invalid comment data" |} ∧ st' = st)
  ∧ (∀ postId post validatedData,
       isAuthenticated req = true → param req = Some postId →
       getPost postId st = Some post →
       insertCommentSchema_parse (input postId) = Some validatedData →
       res = {| status := 201; sent := One (created validatedData) |}
       ∧ st' = (createComment validatedData now st).2
       ∧ Map_get (currentCommentId st) (comments st') = Some (created validatedData))
  ∧ (status res ≠ 201 → st' = st)
  ∧ (status res = 201 →
     isAuthenticated req = true
     ∧ ∃ postId post validatedData,
         param req = Some postId
         ∧ getPost postId st = Some post
         ∧ insertCommentSchema_parse (input postId) = Some validatedData
         ∧ sent res = One (created validatedData)
         ∧ prop (created validatedData) "id" = VNum (currentCommentId st)
         ∧ Map_get (currentCommentId st) (comments st') = Some (created validatedData))
  ∧ posts st' = posts st.
Proof.
  clear insertPostSchema_partial_parse. cbv zeta. unfold post_comment.
  destruct (isAuthenticated req); simpl.
  2: { split_and!; intros; simplify_eq/=; done. }
  destruct (param req) as [postId|]; simpl.
  2: { split_and!; intros; simplify_eq/=; done. }
  destruct (getPost postId st) as [post|] eqn:Hget; simpl.
  2: { split_and!; intros; simplify_eq/=; done. }
  destruct (insertCommentSchema_parse _) as [validatedData|] eqn:Hparse; simpl.
  2: { split_and!; intros; simplify_eq/=; done. }
  assert (Map_get (currentCommentId st)
            (comments (createComment validatedData now st).2)
          = Some (createComment validatedData now st).1) as Hstored.
  { apply Map_get_set_eq. }
  split_and!; intros; simplify_eq/=; try done.
  split; [done|]. exists postId, post, validatedData. split_and!; try done.
  unfold prop. by rewrite lookup_insert_ne, lookup_insert_eq.
Qed.

(** GET /api/users answers the list only to an authenticated admin, and
    among the users of a store built by registrations that is the seeded
    account with id 1 alone. *)
Theorem get_users_only_for_the_seeded_admin (inputs : list obj) (req : request) :
  let st := register_all inputs constructor in
  user req ∈ getAllUsers st →
  status (get_users req st) = 200 →
  isAuthenticated req = true
  ∧ prop (user req) "id" = VNum 1
  ∧ sent (get_users req st) = Many (getAllUsers st).
Proof.
  intros st Hin. unfold get_users.
  destruct (isAuthenticated req); simpl; [|done].
  destruct (truthy (prop (user req) "isAdmin")) eqn:Hadmin; simpl; [|done].
  intros _. split_and!; try done. by eapply admin_among_registered.
Qed.

End Routes_facts.

Lemma put_post_only_by_author_or_admin_witness :
  let post : obj :=
    list_to_map [("title", VStr "T"); ("content", VStr "C"); ("authorId", VNum 7);
                 ("id", VNum 1); ("createdAt", VDate 1000)] in
  let validatedData : obj := {["title" := VStr "U"]} in
  let res := (Routes.put_post keep_post_fields request_of_user_7 commented_store).1 in
  let st' := (Routes.put_post keep_post_fields request_of_user_7 commented_store).2 in
  Routes.isAuthenticated request_of_user_7 = true
  ∧ Routes.param request_of_user_7 = Some 1
  ∧ Storage.getPost 1 commented_store = Some post
  ∧ (strict_equal (prop post "authorId") (prop (Routes.user request_of_user_7) "id") = true
     ∨ truthy (prop (Routes.user request_of_user_7) "isAdmin") = true)
  ∧ keep_post_fields (Routes.body request_of_user_7) = Some validatedData
  ∧ res = {| Routes.status := 200; Routes.sent := Routes.One (spread post validatedData) |}
  ∧ st' = (Storage.updatePost 1 validatedData commented_store).2
  ∧ Storage.getPost 1 st' = Some (spread post validatedData).
Proof.
  intros post validatedData res st'.
  assert (Storage.getPost 1 commented_store = Some post) as Hget.
  { vm_compute. reflexivity. }
  assert (strict_equal (prop post "authorId") (prop (Routes.user request_of_user_7) "id")
          = true
          ∨ truthy (prop (Routes.user request_of_user_7) "isAdmin") = true) as Hentitled.
  { left. vm_compute. reflexivity. }
  assert (keep_post_fields (Routes.body request_of_user_7) = Some validatedData) as Hparse.
  { vm_compute. reflexivity. }
  split_and!; [reflexivity|reflexivity|exact Hget|exact Hentitled|exact Hparse|..];
    apply (proj1 (proj2 (proj2 (proj2 (proj2
             (put_post_only_by_author_or_admin keep_post_fields request_of_user_7
                commented_store))))) 1 post validatedData eq_refl eq_refl Hget Hentitled
             Hparse).
Defined.

Lemma post_comment_only_on_existing_post_witness :
  let post : obj :=
    list_to_map [("title", VStr "T"); ("content", VStr "C"); ("authorId", VNum 7);
                 ("id", VNum 1); ("createdAt", VDate 1000)] in
  let validatedData : obj :=
    list_to_map [("content", VStr "hi"); ("authorId", VNum 8); ("postId", VNum 1)] in
  let comment : obj :=
    list_to_map [("content", VStr "hi"); ("authorId", VNum 8); ("postId", VNum 1);
                 ("id", VNum 2); ("createdAt", VDate 3000)] in
  let res := (Routes.post_comment keep_comment_fields comment_of_user_8 3000
                commented_store).1 in
  let st' := (Routes.post_comment keep_comment_fields comment_of_user_8 3000
                commented_store).2 in
  Routes.isAuthenticated comment_of_user_8 = true
  ∧ Routes.param comment_of_user_8 = Some 1
  ∧ Storage.getPost 1 commented_store = Some post
  ∧ keep_comment_fields
      (<["postId" := VNum 1]>
         (<["authorId" := prop (Routes.user comment_of_user_8) "id"]>
            (Routes.body comment_of_user_8))) = Some validatedData
  ∧ Storage.currentCommentId commented_store = 2
  ∧ comment = <["createdAt" := VDate 3000]> (<["id" := VNum 2]> validatedData)
  ∧ res = {| Routes.status := 201; Routes.sent := Routes.One comment |}
  ∧ st' = (Storage.createComment validatedData 3000 commented_store).2
  ∧ Map_get 2 (Storage.comments st') = Some comment.
Proof.
  intros post validatedData comment res st'.
  assert (Storage.getPost 1 commented_store = Some post) as Hget.
  { vm_compute. reflexivity. }
  assert (keep_comment_fields
            (<["postId" := VNum 1]>
               (<["authorId" := prop (Routes.user comment_of_user_8) "id"]>
                  (Routes.body comment_of_user_8))) = Some validatedData) as Hparse.
  { vm_compute. reflexivity. }
  assert (comment = <["createdAt" := VDate 3000]> (<["id" := VNum 2]> validatedData))
    as Hcomment.
  { vm_compute. reflexivity. }
  pose proof (proj1 (proj2 (proj2 (proj2
      (post_comment_only_on_existing_post keep_comment_fields comment_of_user_8
         3000 commented_store)))) 1 post validatedData eq_refl eq_refl Hget Hparse)
    as (Hres & Hst & Hstored).
  fold res st' in Hres, Hst, Hstored.
  split_and!; [reflexivity|reflexivity|exact Hget|exact Hparse|reflexivity|exact Hcomment
              | |exact Hst|].
  - rewrite Hcomment. exact Hres.
  - rewrite Hcomment. exact Hstored.
Defined.

Lemma keep_post_fields_drops_identity (body data : obj) :
  keep_post_fields body = Some data →
  data !! "id" = None ∧ data !! "createdAt" = None.
Proof.
  unfold keep_post_fields. intros [= <-].
  split; apply map_lookup_filter_None; right; intros v _ Hin; simpl in Hin;
    apply list_elem_of_In in Hin; simpl in Hin;
    by repeat destruct Hin as [Hin|Hin].
Qed.

Lemma put_post_keeps_id_and_createdAt_witness :
  let post : obj :=
    list_to_map [("title", VStr "T"); ("content", VStr "C"); ("authorId", VNum 7);
                 ("id", VNum 1); ("createdAt", VDate 1000)] in
  (∀ body data, keep_post_fields body = Some data →
                data !! "id" = None ∧ data !! "createdAt" = None)
  ∧ Storage.getPost 1 commented_store = Some post
  ∧ ∃ post',
      Storage.getPost 1
        (Routes.put_post keep_post_fields request_of_user_7 commented_store).2
      = Some post'
      ∧ prop post' "id" = prop post "id"
      ∧ prop post' "createdAt" = prop post "createdAt".
Proof.
  intros post.
  assert (Storage.getPost 1 commented_store = Some post) as Hget.
  { vm_compute. reflexivity. }
  split_and!; [exact keep_post_fields_drops_identity|exact Hget|].
  exact (put_post_keeps_id_and_createdAt keep_post_fields request_of_user_7
           commented_store 1 post keep_post_fields_drops_identity Hget).
Defined.

Lemma commented_store_posts_ok : Storage.posts_ok commented_store.
Proof.
  split; simpl.
  - apply NoDup_singleton.
  - apply Forall_singleton. done.
Qed.

Lemma delete_post_only_by_author_or_admin_witness :
  Storage.posts_ok commented_store
  ∧ (Routes.status (Routes.delete_post request_of_user_8 commented_store).1 ≠ 204 →
     (Routes.delete_post request_of_user_8 commented_store).2 = commented_store)
  ∧ Routes.status (Routes.delete_post request_of_user_8 commented_store).1 = 403
  ∧ Routes.status (Routes.delete_post request_of_user_7 commented_store).1 = 204.
Proof.
  pose proof (delete_post_only_by_author_or_admin request_of_user_8 commented_store
                commented_store_posts_ok) as (Hsame & _).
  split_and!; [exact commented_store_posts_ok|exact Hsame|reflexivity|reflexivity].
Defined.

Lemma delete_comment_by_any_user_witness :
  let comment : obj :=
    list_to_map [("content", VStr "hello"); ("authorId", VNum 7); ("postId", VNum 1);
                 ("id", VNum 1); ("createdAt", VDate 2000)] in
  NoDup (Storage.comments commented_store).*1
  ∧ Routes.isAuthenticated request_of_user_8 = true
  ∧ Routes.param request_of_user_8 = Some 1
  ∧ Map_get 1 (Storage.comments commented_store) = Some comment
  ∧ Routes.status (Routes.delete_comment request_of_user_8 commented_store).1 = 204
  ∧ Map_get 1 (Storage.comments
                 (Routes.delete_comment request_of_user_8 commented_store).2) = None.
Proof.
  intros comment.
  assert (NoDup (Storage.comments commented_store).*1) as Hnd by apply NoDup_singleton.
  assert (Map_get 1 (Storage.comments commented_store) = Some comment) as Hget.
  { vm_compute. reflexivity. }
  pose proof (delete_comment_by_any_user request_of_user_8 commented_store 1 comment
                Hnd eq_refl eq_refl Hget) as (Hstatus & Hgone & _).
  split_and!; [exact Hnd|reflexivity|reflexivity|exact Hget|exact Hstatus|exact Hgone].
Defined.

Lemma get_users_only_for_the_seeded_admin_witness :
  let req :=
    {| Routes.isAuthenticated := true;
       Routes.user :=
         list_to_map [("id", VNum 1); ("username", VStr "admin");
                      ("password", VStr "admin"); ("fullName", VStr "Admin User");
                      ("isAdmin", VBool true)];
       Routes.param := None; Routes.body := ∅ |} in
  Routes.user req ∈ Storage.getAllUsers (Storage.register_all [] Storage.constructor)
  ∧ Routes.status (Routes.get_users req (Storage.register_all [] Storage.constructor)) = 200
  ∧ prop (Routes.user req) "id" = VNum 1.
Proof.
  intros req.
  assert (Routes.user req
          ∈ Storage.getAllUsers (Storage.register_all [] Storage.constructor)) as Hin.
  { apply (bool_decide_unpack _). vm_compute. exact I. }
  destruct (get_users_only_for_the_seeded_admin [] req Hin eq_refl) as (_ & Hid & _).
  split_and!; [exact Hin|reflexivity|exact Hid].
Defined.

(** ** The aggregation pipeline: filters and order *)

Section Array_sort_more.
Context {A : Type} (compareFn : A → A → Z).

(** Elements the comparator cannot tell apart keep their order. *)
Lemma sort_insert_filter (P : A → bool) x l :
  (∀ a b, P a = true → P b = true → compareFn a b = 0) →
  List.filter P (sort_insert compareFn x l) = List.filter P (x :: l).
Proof.
  intros Hclass. induction l as [|y l IH]; [done|]. cbn [sort_insert].
  destruct (Z.leb_spec (compareFn x y) 0) as [Hle|Hgt]; [done|].
  cbn [List.filter] in *. destruct (P y) eqn:Hy; [|exact IH].
  destruct (P x) eqn:Hx.
  - pose proof (Hclass x y Hx Hy). lia.
  - by rewrite IH.
Qed.

Lemma Array_sort_filter (P : A → bool) l :
  (∀ a b, P a = true → P b = true → compareFn a b = 0) →
  List.filter P (Array_sort compareFn l) = List.filter P l.
Proof.
  intros Hclass. induction l as [|x l IH]; [done|].
  cbn [Array_sort foldr]. rewrite sort_insert_filter by done.
  cbn [List.filter]. fold (Array_sort compareFn l). by rewrite IH.
Qed.

(** Sorting a sorted list changes nothing. *)
Lemma Array_sort_sorted l :
  Sorted (not_after compareFn) l → Array_sort compareFn l = l.
Proof.
  induction 1 as [|x l Hl IH Hhd]; [done|].
  cbn [Array_sort foldr]. fold (Array_sort compareFn l). rewrite IH.
  destruct Hhd as [|y l' Hxy]; [done|]. cbn [sort_insert].
  unfold not_after in Hxy. by rewrite (proj2 (Z.leb_le _ _)).
Qed.

Hypothesis compareFn_trans :
  ∀ a b c, compareFn a b <= 0 → compareFn b c <= 0 → compareFn a c <= 0.

Lemma Sorted_head_not_after x l :
  Sorted (not_after compareFn) (x :: l) → Forall (not_after compareFn x) l.
Proof.
  intros Hsorted.
  assert (Transitive (not_after compareFn)) as Htr.
  { intros a b c. apply compareFn_trans. }
  apply Sorted_StronglySorted in Hsorted; [|done].
  by apply StronglySorted_inv in Hsorted as [_ ?].
Qed.

End Array_sort_more.

Section Pipeline_more.
Import HomePage.
Variable localeCompare : string → string → Z.

Lemma List_filter_comm {A} (f g : A → bool) (l : list A) :
  List.filter f (List.filter g l) = List.filter g (List.filter f l).
Proof.
  induction l as [|x l IH]; [done|]. simpl.
  destruct (f x) eqn:Hf, (g x) eqn:Hg; simpl; rewrite ?Hf, ?Hg, IH; done.
Qed.

Lemma List_filter_idemp {A} (f : A → bool) (l : list A) :
  List.filter f (List.filter f l) = List.filter f l.
Proof.
  induction l as [|x l IH]; [done|]. simpl.
  destruct (f x) eqn:Hf; simpl; rewrite ?Hf, IH; done.
Qed.

(** The two filter stages of the pipeline commute, and applying a stage
    twice is applying it once. *)
Theorem filter_stages_commute (posts : list Post.t) (selectedCategory searchQuery : string) :
  filter_search searchQuery (filter_category selectedCategory posts)
  = filter_category selectedCategory (filter_search searchQuery posts)
  ∧ filter_category selectedCategory (filter_category selectedCategory posts)
    = filter_category selectedCategory posts
  ∧ filter_search searchQuery (filter_search searchQuery posts)
    = filter_search searchQuery posts.
Proof.
  unfold filter_search, filter_category.
  destruct (negb (String.eqb searchQuery "")), (negb (String.eqb selectedCategory "all"));
    split_and!; try done.
  - apply List_filter_comm.
  - apply List_filter_idemp.
  - apply List_filter_idemp.
  - apply List_filter_idemp.
  - apply List_filter_idemp.
Qed.

Lemma List_filter_elem_of {A} (f : A → bool) (l : list A) x :
  x ∈ List.filter f l ↔ x ∈ l ∧ f x = true.
Proof. rewrite !list_elem_of_In. apply filter_In. Qed.

(** The pipeline neither loses nor invents posts: its output is a
    rearrangement of the posts that pass the two filters, all of the
    input when the category is all and the query is empty; and every
    post it shows has the selected category (case folded) and contains
    the query. *)
Theorem filteredPosts_rearranges (posts : list Post.t)
  (selectedCategory searchQuery sortBy : string) :
  let output := filteredPosts localeCompare posts selectedCategory searchQuery sortBy in
  output ≡ₚ filter_search searchQuery (filter_category selectedCategory posts)
  ∧ (selectedCategory = "all" → searchQuery = "" → output ≡ₚ posts)
  ∧ ∀ post, post ∈ output →
      post ∈ posts
      ∧ (selectedCategory ≠ "all" →
         ∃ c, Post.category post = Some c ∧ JsString.toLowerCase c = selectedCategory)
      ∧ (searchQuery ≠ "" →
         ∃ text, (text = Post.title post ∨ text = Post.content post
                  ∨ Post.tags post = Some text)
                 ∧ JsString.substring_of (JsString.toLowerCase searchQuery)
                     (JsString.toLowerCase text)).
Proof.
  intros output.
  assert (output ≡ₚ filter_search searchQuery (filter_category selectedCategory posts))
    as Hperm by apply Array_sort_Permutation.
  split_and!; [done| |].
  { intros -> ->. by rewrite Hperm. }
  intros post Hin. rewrite Hperm in Hin. clear Hperm output. split_and!.
  - eapply elem_of_sublist; [done|]. apply filter_stages_sublist.
  - intros Hcat. unfold filter_search in Hin.
    assert (post ∈ filter_category selectedCategory posts) as Hin'.
    { destruct (negb _); [|done]. by apply List_filter_elem_of in Hin as [? _]. }
    unfold filter_category in Hin'.
    rewrite (proj2 (String.eqb_neq _ _)) in Hin' by done. simpl in Hin'.
    apply List_filter_elem_of in Hin' as [_ Hc].
    destruct (Post.category post) as [c|]; [|done].
    exists c. split; [done|]. by apply String.eqb_eq.
  - intros Hquery. unfold filter_search in Hin.
    rewrite (proj2 (String.eqb_neq _ _)) in Hin by done. simpl in Hin.
    apply List_filter_elem_of in Hin as [_ Hmatch].
    apply orb_true_iff in Hmatch as [[Ht|Hc]%orb_true_iff|Hg].
    + exists (Post.title post). split; [by left|]. by apply includes_spec.
    + exists (Post.content post). split; [by right; left|]. by apply includes_spec.
    + destruct (Post.tags post) as [tags|]; [|done].
      exists tags. split; [by right; right|]. by apply includes_spec.
Qed.

Hypothesis localeCompare_consistent : consistent_collation localeCompare.

Lemma compareFn_consistent sortBy :
  (∀ a b, Z.sgn (compareFn localeCompare sortBy b a)
          = - Z.sgn (compareFn localeCompare sortBy a b))
  ∧ (∀ a b c, compareFn localeCompare sortBy a b <= 0 →
              compareFn localeCompare sortBy b c <= 0 →
              compareFn localeCompare sortBy a c <= 0).
Proof.
  destruct localeCompare_consistent as [Hflip Htrans].
  unfold compareFn.
  destruct (String.eqb sortBy "oldest"); [|destruct (String.eqb sortBy "title_asc");
    [|destruct (String.eqb sortBy "title_desc")]].
  - split; [intros a b; rewrite <-Z.sgn_opp; f_equal; lia|intros a b c; lia].
  - split; [intros a b; apply Hflip|intros a b c; apply Htrans].
  - split; [intros a b; apply Hflip|intros a b c H1 H2; exact (Htrans _ _ _ H2 H1)].
  - split; [intros a b; rewrite <-Z.sgn_opp; f_equal; lia|intros a b c; lia].
Qed.

(** The output is in the order asked for. Under every sort key no post
    stands before one the comparator puts first; so under latest (the
    default) the first post, the featured one, is the newest, and under
    oldest it is the oldest, a missing createdAt counting as the epoch. *)
Theorem filteredPosts_sorted (posts : list Post.t)
  (selectedCategory searchQuery sortBy : string) :
  let output := filteredPosts localeCompare posts selectedCategory searchQuery sortBy in
  Sorted (not_after (compareFn localeCompare sortBy)) output
  ∧ ∀ featured rest, output = featured :: rest →
      (sortBy ∉ ["oldest"; "title_asc"; "title_desc"] →
       Forall (λ post, getTime post <= getTime featured) rest)
      ∧ (sortBy = "oldest" → Forall (λ post, getTime featured <= getTime post) rest).
Proof.
  intros output. destruct (compareFn_consistent sortBy) as [Hflip Htrans].
  assert (Sorted (not_after (compareFn localeCompare sortBy)) output) as Hsorted.
  { by apply Array_sort_Sorted. }
  split; [done|]. intros featured rest Hout. rewrite Hout in Hsorted.
  apply Sorted_head_not_after in Hsorted; [|done]. split.
  - intros Hkey. eapply Forall_impl; [done|]. intros post. unfold not_after, compareFn.
    rewrite !not_elem_of_cons in Hkey. destruct Hkey as (H1 & H2 & H3 & _).
    rewrite !(proj2 (String.eqb_neq _ _)) by done. lia.
  - intros ->. eapply Forall_impl; [done|]. intros post. unfold not_after, compareFn.
    simpl. lia.
Qed.

(** Running the pipeline on its own output, with the same category,
    query and sort key, gives that output again. *)
Theorem filteredPosts_idempotent (posts : list Post.t)
  (selectedCategory searchQuery sortBy : string) :
  filteredPosts localeCompare
    (filteredPosts localeCompare posts selectedCategory searchQuery sortBy)
    selectedCategory searchQuery sortBy
  = filteredPosts localeCompare posts selectedCategory searchQuery sortBy.
Proof.
  destruct (compareFn_consistent sortBy) as [Hflip Htrans].
  set (output := filteredPosts localeCompare posts selectedCategory searchQuery sortBy).
  assert (filter_search searchQuery (filter_category selectedCategory output) = output)
    as Hkept.
  { assert (output ≡ₚ filter_search searchQuery (filter_category selectedCategory posts))
      as Hperm by apply Array_sort_Permutation.
    unfold filter_search, filter_category.
    assert (∀ (f : Post.t → bool) l, Forall (λ x, f x = true) l → List.filter f l = l)
      as Hall.
    { intros f l. induction 1 as [|x l Hx _ IH]; simpl; [done|]. by rewrite Hx, IH. }
    assert (∀ post, post ∈ output →
              post ∈ filter_search searchQuery (filter_category selectedCategory posts))
      as Hin.
    { intros post Hpost. by rewrite <-Hperm. }
    unfold filter_search, filter_category in Hin.
    destruct (negb (String.eqb searchQuery "")), (negb (String.eqb selectedCategory "all")).
    - rewrite (Hall _ output).
      + apply Hall, Forall_forall. intros post Hpost.
        by apply Hin, List_filter_elem_of in Hpost as [_ ?].
      + apply Forall_forall. intros post Hpost.
        apply Hin, List_filter_elem_of in Hpost as [Hpost _].
        by apply List_filter_elem_of in Hpost as [_ ?].
    - apply Hall, Forall_forall. intros post Hpost.
      by apply Hin, List_filter_elem_of in Hpost as [_ ?].
    - apply Hall, Forall_forall. intros post Hpost.
      by apply Hin, List_filter_elem_of in Hpost as [_ ?].
    - done. }
  unfold filteredPosts at 1. rewrite Hkept.
  apply Array_sort_sorted. by apply Array_sort_Sorted.
Qed.

End Pipeline_more.

Section Pipeline_stability.
Import HomePage.
Variable localeCompare : string → string → Z.

(** Posts the sort key cannot tell apart keep the order of the input:
    for every set of posts that compare equal to one another, the output
    lists its members in input order. Under latest and oldest these are
    the posts with one creation time, so there local posts stay before
    external ones of the same time. *)
Theorem equal_posts_keep_their_order (posts : list Post.t)
  (selectedCategory searchQuery sortBy : string) (P : Post.t → bool) :
  (∀ a b, P a = true → P b = true → compareFn localeCompare sortBy a b = 0) →
  List.filter P (filteredPosts localeCompare posts selectedCategory searchQuery sortBy)
  = List.filter P (filter_search searchQuery (filter_category selectedCategory posts)).
Proof. intros Hclass. unfold filteredPosts. by apply Array_sort_filter. Qed.

End Pipeline_stability.

Lemma equal_posts_keep_their_order_witness :
  (∀ a b, (HomePage.getTime a =? 1000) = true → (HomePage.getTime b =? 1000) = true →
          HomePage.compareFn codeUnitCompare "latest" a b = 0)
  ∧ List.filter (λ post, HomePage.getTime post =? 1000)
      (HomePage.filteredPosts codeUnitCompare tied_posts "all" "" "latest")
    = List.filter (λ post, HomePage.getTime post =? 1000)
        (HomePage.filter_search "" (HomePage.filter_category "all" tied_posts))
  ∧ Post.id <$> List.filter (λ post, HomePage.getTime post =? 1000)
                  (HomePage.filter_search "" (HomePage.filter_category "all" tied_posts))
    = [1; 101]
  ∧ Post.id <$> HomePage.filteredPosts codeUnitCompare tied_posts "all" "" "latest"
    = [2; 3; 1; 101].
Proof.
  assert (∀ a b, (HomePage.getTime a =? 1000) = true →
                 (HomePage.getTime b =? 1000) = true →
                 HomePage.compareFn codeUnitCompare "latest" a b = 0) as Hclass.
  { intros a b Ha%Z.eqb_eq Hb%Z.eqb_eq.
    change (HomePage.getTime b - HomePage.getTime a = 0). lia. }
  split; [exact Hclass|]. split; [|split; vm_compute; reflexivity].
  exact (equal_posts_keep_their_order codeUnitCompare tied_posts "all" "" "latest"
           (λ post, HomePage.getTime post =? 1000) Hclass).
Defined.

Lemma filteredPosts_sorted_witness :
  consistent_collation codeUnitCompare
  ∧ Sorted (not_after (HomePage.compareFn codeUnitCompare "latest"))
      (HomePage.filteredPosts codeUnitCompare apple_banana "all" "" "latest").
Proof.
  split; [exact codeUnitCompare_consistent|].
  exact (proj1 (filteredPosts_sorted codeUnitCompare codeUnitCompare_consistent
                  apple_banana "all" "" "latest")).
Defined.

Lemma filteredPosts_idempotent_witness :
  consistent_collation codeUnitCompare
  ∧ HomePage.filteredPosts codeUnitCompare
      (HomePage.filteredPosts codeUnitCompare apple_banana "all" "a" "title_desc")
      "all" "a" "title_desc"
    = HomePage.filteredPosts codeUnitCompare apple_banana "all" "a" "title_desc".
Proof.
  split; [exact codeUnitCompare_consistent|].
  exact (filteredPosts_idempotent codeUnitCompare codeUnitCompare_consistent
           apple_banana "all" "a" "title_desc").
Defined.

(** ** The external content mapper: results *)

Section Api_more.
Import ApiService.
Variable clock : loc → Z.
Variable fetch : string → fetch_outcome.
Variable encodeURIComponent : string → string.

Lemma try_catch_returns (body : JS (list Post.t)) h :
  ∃ result, (try_catch body (λ _, mret []) h).1 = Ok result.
Proof. unfold try_catch. destruct (body h) as [[result|e] h']; simpl; eauto. Qed.

(** The three fetch functions never throw: for every state of the
    network and every argument they return a sequence of posts. *)
Theorem fetch_functions_never_throw :
  (∀ limit skip h, ∃ result, (fetchExternalPosts clock fetch limit skip h).1 = Ok result)
  ∧ (∀ category h,
       ∃ result, (fetchExternalPostsByCategory clock fetch category h).1 = Ok result)
  ∧ (∀ query h,
       ∃ result,
         (searchExternalPosts clock fetch encodeURIComponent query h).1 = Ok result).
Proof. split_and!; intros; apply try_catch_returns. Qed.

Lemma Array_map_call_mapExternalPostToSchema (l : list (loc * ExternalBlogPost.t)) h :
  ∃ result,
    Array_map (call_mapExternalPostToSchema clock) l h = (Ok result, (h + length l)%nat)
    ∧ mapped_each result l.*2.
Proof.
  revert h. induction l as [|x l IH]; intros h.
  - exists []. split; [|constructor]. simpl. unfold mret, JS_ret. f_equal. lia.
  - destruct (IH (S h)) as (result & Hmap & Heach).
    exists (mapExternalPostToSchema (clock h) x.2 :: result). split.
    + cbn [Array_map]. erewrite bind_Ok; [|reflexivity].
      erewrite bind_Ok; [|apply Hmap]. unfold mret, JS_ret. f_equal. simpl. lia.
    + rewrite fmap_cons. constructor; [by eexists|done].
Qed.

Lemma mapped_each_ids result payload :
  mapped_each result payload → Post.id <$> result = ExternalBlogPost.id <$> payload.
Proof.
  induction 1 as [|mapped post result payload [now ->] _ IH]; [done|].
  rewrite !fmap_cons, IH. done.
Qed.

Lemma fetched_and_mapped url message data h :
  fetch url = Response true (Json data) →
  ∃ result,
    (try_catch
       (response ← await_fetch fetch url;
        if negb response.1 then throw (Error message)
        else data_posts ← response_json response;
             Array_map (call_mapExternalPostToSchema clock) data_posts)
       (λ _, mret []) h).1 = Ok result
    ∧ mapped_each result (posts data).
Proof.
  intros Hfetch.
  destruct (Array_map_call_mapExternalPostToSchema
              (zip (seq h (length (posts data))) (posts data)) (h + length (posts data)))
    as (result & Hmap & Heach).
  rewrite snd_zip in Heach by (rewrite length_seq; lia).
  exists result. split; [|done].
  erewrite try_catch_Ok; [done|].
  erewrite bind_Ok; [|unfold await_fetch; rewrite Hfetch; reflexivity]. simpl.
  erewrite bind_Ok; [|unfold response_json; simpl; apply (Array_map_alloc id)].
  rewrite list_fmap_id. apply Hmap.
Qed.

(** When the request succeeds, fetchExternalPosts, searchExternalPosts
    and fetchExternalPostsByCategory for the category all return one
    post for each post of the payload, in the payload's order, each the
    mapping of its source post; so the ids are the payload's ids. *)
Theorem successful_fetch_maps_every_post (data : ExternalApiResponse) :
  (∀ limit skip h,
     fetch (posts_url limit skip) = Response true (Json data) →
     ∃ result, (fetchExternalPosts clock fetch limit skip h).1 = Ok result
               ∧ mapped_each result (posts data)
               ∧ length result = length (posts data)
               ∧ Post.id <$> result = ExternalBlogPost.id <$> posts data)
  ∧ (∀ h,
       fetch (posts_url 20 0) = Response true (Json data) →
       ∃ result, (fetchExternalPostsByCategory clock fetch "all" h).1 = Ok result
                 ∧ mapped_each result (posts data)
                 ∧ length result = length (posts data)
                 ∧ Post.id <$> result = ExternalBlogPost.id <$> posts data)
  ∧ (∀ query h,
       fetch (search_url encodeURIComponent query) = Response true (Json data) →
       ∃ result,
         (searchExternalPosts clock fetch encodeURIComponent query h).1 = Ok result
         ∧ mapped_each result (posts data)
         ∧ length result = length (posts data)
         ∧ Post.id <$> result = ExternalBlogPost.id <$> posts data).
Proof.
  assert (∀ result, mapped_each result (posts data) →
            mapped_each result (posts data)
            ∧ length result = length (posts data)
            ∧ Post.id <$> result = ExternalBlogPost.id <$> posts data) as Hmore.
  { intros result Heach. split_and!; [done| |by apply mapped_each_ids].
    by eapply Forall2_length. }
  split_and!.
  - intros limit skip h Hfetch.
    destruct (fetched_and_mapped _ "Failed to fetch posts from external API" data h Hfetch)
      as (result & Hresult & Heach).
    exists result. split; [exact Hresult|by apply Hmore].
  - intros h Hfetch.
    destruct (fetched_and_mapped _ "Failed to fetch posts from external API" data h Hfetch)
      as (result & Hresult & Heach).
    exists result. split; [|by apply Hmore].
    unfold fetchExternalPostsByCategory. simpl.
    unfold fetchExternalPosts, try_catch at 1.
    destruct (try_catch _ _ h) as [[r|e] h']; simpl in *; [done|discriminate].
  - intros query h Hfetch.
    destruct (fetched_and_mapped _ "Failed to search posts from external API" data h Hfetch)
      as (result & Hresult & Heach).
    exists result. split; [exact Hresult|by apply Hmore].
Qed.

Lemma fetch_known_category_categories category h result h' :
  fetch_known_category clock fetch category h = (Ok result, h') →
  Forall (λ post, Post.category post = Some (JsString.toLowerCase category)) result.
Proof.
  unfold fetch_known_category, mbind, JS_bind, await_fetch.
  destruct (fetch "https://dummyjson.com/posts?limit=100") as [|[] [| |data]];
    simpl; try discriminate.
  unfold response_json. simpl. rewrite (Array_map_alloc id).
  unfold lift.
  destruct (Array_filter _ _) as [F0|e]; [|discriminate].
  rewrite (Array_map_alloc (λ post : loc * ExternalBlogPost.t,
             retag (JsString.toLowerCase category) post.2)).
  destruct (Z.of_nat _ <? 5).
  - rewrite (Array_map_alloc (λ post : loc * ExternalBlogPost.t,
               pretag (JsString.toLowerCase category) post.2)).
    unfold mret, JS_ret. rewrite Array_map_map_with_category. intros [= <- _].
    eapply mapped_from_category, mapped_with_category_mapped_from.
  - unfold mret, JS_ret. rewrite Array_map_map_with_category. intros [= <- _].
    eapply mapped_from_category, mapped_with_category_mapped_from.
Qed.

Lemma fetch_other_category_categories category h result h' :
  fetch_other_category clock fetch category h = (Ok result, h') →
  Forall (λ post, Post.category post = Some (JsString.toLowerCase category)) result.
Proof.
  unfold fetch_other_category, mbind, JS_bind, await_fetch.
  destruct (fetch "https://dummyjson.com/posts?limit=100") as [|[] [| |data]];
    simpl; try discriminate.
  unfold response_json. simpl. rewrite (Array_map_alloc id).
  unfold lift.
  destruct (Array_filter _ _) as [F|e]; [|discriminate].
  destruct (decide _); rewrite Array_map_map_with_category; intros [= <- _];
    eapply mapped_from_category, mapped_with_category_mapped_from.
Qed.

Lemma List_filter_Forall {A} (f : A → bool) (l : list A) :
  Forall (λ x, f x = true) l → List.filter f l = l.
Proof. induction 1 as [|x l Hx _ IH]; simpl; [done|]. by rewrite Hx, IH. Qed.

(** What fetchExternalPostsByCategory returns for a category other than
    all is displayed: every returned post carries the lower-cased
    category, so for a lower-case selection, as the category buttons
    give, the pipeline's category filter keeps all of them. *)
Theorem fetched_posts_pass_the_category_filter
  (category : string) (h : loc) (result : list Post.t) :
  category ≠ "all" →
  (fetchExternalPostsByCategory clock fetch category h).1 = Ok result →
  Forall (λ post, Post.category post = Some (JsString.toLowerCase category)) result
  ∧ (JsString.toLowerCase category = category →
     HomePage.filter_category category result = result).
Proof.
  intros Hall Hresult.
  assert (Forall (λ post, Post.category post = Some (JsString.toLowerCase category))
            result) as Hcategory.
  { unfold fetchExternalPostsByCategory, try_catch in Hresult.
    rewrite (proj2 (String.eqb_neq _ _)) in Hresult by done.
    destruct (bool_decide _).
    - destruct (fetch_known_category clock fetch category h) as [[r|e] h'] eqn:Hbody;
        simpl in Hresult; simplify_eq; [|constructor].
      by eapply fetch_known_category_categories.
    - destruct (fetch_other_category clock fetch category h) as [[r|e] h'] eqn:Hbody;
        simpl in Hresult; simplify_eq; [|constructor].
      by eapply fetch_other_category_categories. }
  split; [done|]. intros Hlower. unfold HomePage.filter_category.
  rewrite (proj2 (String.eqb_neq _ _)) by done. simpl.
  apply List_filter_Forall. eapply Forall_impl; [done|]. simpl.
  intros post ->. rewrite Hlower at 1. rewrite Hlower. apply String.eqb_refl.
Qed.

Lemma append_empty_r (s : string) : s +:+ "" = s.
Proof. induction s as [|c s IH]; [done|]. by rewrite append_cons, IH. Qed.

Lemma join_starts_with_first (first : string) (rest : list string) :
  String.prefix first (JsString.join (first :: rest) ",") = true.
Proof.
  apply prefix_spec. unfold JsString.join. simpl. destruct rest as [|second rest].
  - exists "". by rewrite append_empty_r.
  - by eexists.
Qed.

Lemma known_selection_tagged c matchingTags matchingKeywords payload :
  Forall (λ post, ∃ rest, ExternalBlogPost.tags post = c :: rest)
    (known_selection c matchingTags matchingKeywords payload).
Proof.
  unfold known_selection. apply Forall_app. split.
  - apply Forall_fmap, Forall_forall. intros post _. simpl. by eexists.
  - destruct (_ <? 5); [|constructor].
    apply Forall_fmap, Forall_forall. intros post _. simpl. by eexists.
Qed.

Lemma mapped_from_tagged c result chosen :
  mapped_from c result chosen →
  Forall (λ post, ∃ rest, ExternalBlogPost.tags post = c :: rest) chosen →
  Forall (λ post, Post.category post = Some c
                  ∧ ∃ tags, Post.tags post = Some tags ∧ String.prefix c tags = true)
    result.
Proof.
  induction 1 as [|mapped post result chosen [now ->] _ IH]; intros Htagged;
    [constructor|].
  apply Forall_cons in Htagged as [[rest Hpost] Htagged].
  constructor; [|by apply IH]. split; [done|]. simpl. eexists. split; [done|].
  rewrite Hpost. apply join_starts_with_first.
Qed.

(** For one of the five categories with keyword sets, when the request
    succeeds: every returned post carries the category and its tags
    string starts with the category; at least five matching posts are
    returned as they are, in payload order and without padding; fewer
    than five, n, are followed by the first 10 - n posts of the payload,
    as far as it has them. *)
Theorem known_category_result (category : string) (data : ExternalApiResponse) (h : loc) :
  let c := JsString.toLowerCase category in
  c ∈ known_categories →
  fetch "https://dummyjson.com/posts?limit=100" = Response true (Json data) →
  ∃ result matchingTags matchingKeywords,
    categoryToTags !! c = Some matchingTags
    ∧ categoryKeywords !! c = Some matchingKeywords
    ∧ (fetchExternalPostsByCategory clock fetch category h).1 = Ok result
    ∧ Forall (λ post, Post.category post = Some c
                      ∧ ∃ tags, Post.tags post = Some tags
                                ∧ String.prefix c tags = true) result
    ∧ let matched :=
        List.filter (qualifies_known matchingTags matchingKeywords) (posts data) in
      (5 ≤ length matched →
       Post.id <$> result = ExternalBlogPost.id <$> matched)%nat
      ∧ (length matched < 5 →
         Post.id <$> result
         = (ExternalBlogPost.id <$> matched)
           ++ (ExternalBlogPost.id <$> take (10 - length matched) (posts data))
         ∧ length result
           = length matched + (10 - length matched) `min` length (posts data))%nat.
Proof.
  intros c Hc Hfetch.
  destruct (fetchExternalPostsByCategory_known clock fetch category data h Hc Hfetch)
    as (matchingTags & matchingKeywords & Htags & Hkeywords & Hresult).
  cbv zeta in Hresult. fold c in Hresult.
  set (chosen := known_selection c matchingTags matchingKeywords (posts data)) in *.
  set (result := mapped_with_category clock c
                   (h + length (posts data) + length chosen) chosen) in *.
  assert (mapped_from c result chosen) as Hmapped
    by apply mapped_with_category_mapped_from.
  exists result, matchingTags, matchingKeywords.
  split_and!; [done|done|exact Hresult| |].
  - eapply mapped_from_tagged; [done|]. apply known_selection_tagged.
  - intros matched.
    pose proof (mapped_from_ids _ _ _ Hmapped) as Hids.
    apply Forall2_length in Hmapped. rewrite Hids, Hmapped.
    unfold chosen, known_selection. fold matched.
    split.
    + intros Hmany. rewrite (proj2 (Z.ltb_ge _ _)) by lia. rewrite app_nil_r.
      by rewrite <-list_fmap_compose.
    + intros Hfew. rewrite (proj2 (Z.ltb_lt _ _)) by lia. split.
      * by rewrite fmap_app, <-!list_fmap_compose.
      * by rewrite length_app, !length_fmap, length_take.
Qed.

Lemma toLowerCase_unit_idemp (c : ascii) :
  JsString.toLowerCase_unit (JsString.toLowerCase_unit c) = JsString.toLowerCase_unit c.
Proof. destruct c as [[] [] [] [] [] [] [] []]; reflexivity. Qed.

Lemma toLowerCase_idemp (s : string) :
  JsString.toLowerCase (JsString.toLowerCase s) = JsString.toLowerCase s.
Proof.
  induction s as [|c s IH]; [done|]. simpl. by rewrite toLowerCase_unit_idemp, IH.
Qed.

(** The re-tagging of a matching post leaves the category exactly once
    among its tags, in first place, whatever case variants of it the
    post had; the other tags are kept in their order, and every other
    field of the post (id, title, body, userId, reactions) is as it
    was. *)
Theorem retag_leaves_category_once (category : string) (post : ExternalBlogPost.t) :
  let c := JsString.toLowerCase category in
  let tags' := ExternalBlogPost.tags (retag c post) in
  head tags' = Some c
  ∧ List.filter (λ tag, String.eqb (JsString.toLowerCase tag) c) tags' = [c]
  ∧ List.filter (λ tag, negb (String.eqb (JsString.toLowerCase tag) c)) tags'
    = List.filter (λ tag, negb (String.eqb (JsString.toLowerCase tag) c))
        (ExternalBlogPost.tags post)
  ∧ ExternalBlogPost.id (retag c post) = ExternalBlogPost.id post
  ∧ ExternalBlogPost.body (retag c post) = ExternalBlogPost.body post
  ∧ ExternalBlogPost.title (retag c post) = ExternalBlogPost.title post
  ∧ ExternalBlogPost.userId (retag c post) = ExternalBlogPost.userId post
  ∧ ExternalBlogPost.reactions (retag c post) = ExternalBlogPost.reactions post
  ∧ retag c post
    = ExternalBlogPost.mk (ExternalBlogPost.id post) (ExternalBlogPost.title post)
        (ExternalBlogPost.body post) (ExternalBlogPost.userId post) tags'
        (ExternalBlogPost.reactions post).
Proof.
  intros c tags'. unfold tags', retag. simpl.
  assert (JsString.toLowerCase c = c) as Hc by apply toLowerCase_idemp.
  rewrite Hc, String.eqb_refl. simpl.
  split_and!; try done.
  - f_equal. induction (ExternalBlogPost.tags post) as [|tag tags IH]; [done|].
    simpl. destruct (String.eqb (JsString.toLowerCase tag) c) eqn:Htag; simpl; [done|].
    by rewrite Htag.
  - apply List_filter_idemp.
Qed.

End Api_more.

Lemma successful_fetch_maps_every_post_witness :
  let data :=
    {| ApiService.posts := food_source; ApiService.total := 12;
       ApiService.skip := 0; ApiService.limit := 100 |} in
  answering_fetch food_source (posts_url 10 0) = ApiService.Response true (ApiService.Json data)
  ∧ ∃ result,
      (ApiService.fetchExternalPosts sample_clock (answering_fetch food_source) 10 0
         0%nat).1 = Ok result
      ∧ mapped_each result food_source
      ∧ length result = length food_source
      ∧ Post.id <$> result = ExternalBlogPost.id <$> food_source.
Proof.
  intros data. split; [reflexivity|].
  destruct (successful_fetch_maps_every_post sample_clock (answering_fetch food_source)
              (λ s, s) data) as (H1 & _).
  apply (H1 10 0 0%nat). reflexivity.
Defined.

Lemma known_category_result_witness :
  let data :=
    {| ApiService.posts := food_source; ApiService.total := 12;
       ApiService.skip := 0; ApiService.limit := 100 |} in
  JsString.toLowerCase "Food" ∈ ApiService.known_categories
  ∧ answering_fetch food_source "https://dummyjson.com/posts?limit=100"
    = ApiService.Response true (ApiService.Json data)
  ∧ ∃ result,
      (ApiService.fetchExternalPostsByCategory sample_clock (answering_fetch food_source)
         "Food" 0%nat).1 = Ok result
      ∧ Forall (λ post, Post.category post = Some "food"
                        ∧ ∃ tags, Post.tags post = Some tags
                                  ∧ String.prefix "food" tags = true) result.
Proof.
  intros data.
  assert (JsString.toLowerCase "Food" ∈ ApiService.known_categories) as Hknown.
  { apply (bool_decide_unpack _). vm_compute. exact I. }
  split_and!; [exact Hknown|reflexivity|].
  destruct (known_category_result sample_clock (answering_fetch food_source) "Food" data
              0%nat Hknown eq_refl)
    as (result & matchingTags & matchingKeywords & _ & _ & Hresult & Htagged & _).
  exists result. split; [exact Hresult|exact Htagged].
Defined.

Lemma fetched_posts_pass_the_category_filter_witness :
  "food" ≠ "all"
  ∧ ∃ result,
      (ApiService.fetchExternalPostsByCategory sample_clock (answering_fetch food_source)
         "food" 0%nat).1 = Ok result
      ∧ Forall (λ post, Post.category post = Some (JsString.toLowerCase "food")) result
      ∧ (JsString.toLowerCase "food" = "food" →
         HomePage.filter_category "food" result = result).
Proof.
  assert ("food" ≠ "all") as Hall by discriminate.
  split; [exact Hall|]. eexists. split; [vm_compute; reflexivity|].
  apply (fetched_posts_pass_the_category_filter sample_clock
           (answering_fetch food_source) "food" 0%nat _ Hall).
  vm_compute. reflexivity.
Defined.

(** ** The image address *)

Lemma list_ascii_of_append (a b : string) :
  String.list_ascii_of_string (a +:+ b)
  = String.list_ascii_of_string a ++ String.list_ascii_of_string b.
Proof.
  induction a as [|c a IH]; [done|]. rewrite append_cons. simpl. by rewrite IH.
Qed.

Lemma append_inj_r (a b s : string) : a +:+ s = b +:+ s → a = b.
Proof.
  intros H. apply (f_equal String.list_ascii_of_string) in H.
  rewrite !list_ascii_of_append in H. apply app_inv_tail in H.
  apply (f_equal String.string_of_list_ascii) in H.
  by rewrite !String.string_of_list_ascii_of_string in H.
Qed.

(** The placeholder image is keyed by the id alone: two mapped posts
    have the same imageUrl exactly when their source posts have the same
    id, whatever else differs and whenever they were mapped. *)
Theorem imageUrl_same_iff_same_id (now now' : Z) (post post' : ExternalBlogPost.t) :
  Post.imageUrl (ApiService.mapExternalPostToSchema now post)
  = Post.imageUrl (ApiService.mapExternalPostToSchema now' post')
  ↔ ExternalBlogPost.id post = ExternalBlogPost.id post'.
Proof.
  simpl. split.
  - intros [= H]. apply (inj (String.append _)) in H.
    apply append_inj_r in H. unfold JsString.ofNumber in H.
    by apply (inj pretty) in H.
  - by intros ->.
Qed.
